(** * ts_hashmap: a chained hash map with one mutex per bucket

    Shallow embedding of [src/ts_hashmap.c] ([initmap], [get], [put],
    [del], [printmap], [freeMap]) and proofs of the contract of each
    call, of the size and uniqueness invariants, of the single-thread
    behaviour and of the locking discipline.

    Modelling choices.
    - A C [int] is a [Z]; the bounds [INT_MIN], [INT_MAX] are those of a
      32-bit [int].  Signed overflow ([numOps++], [size++], [size--]),
      division by zero and out-of-bounds array accesses
      ([table[index]], [lock[index]]) are undefined behaviour in C: a
      call that runs into one has no result ([None]).
    - A bucket chain (a NULL-terminated list of [ts_entry_t] linked by
      [next]) is a [list] of entries, head first; chains never share
      nodes, and [malloc] does not fail.
    - [table] and [lock] are arrays indexed by a C [int]; they are lists
      read and written by position.
    - Every call carries the log of the mutex operations it performs.
    - [printmap] is the text it writes to the standard output;
      [freeMap] is the log of what it gives back ([free],
      [pthread_mutex_destroy]); destroying a held mutex is undefined.

    The file has the embedding first, then the vocabulary of the
    specification, then the lemmas, then the claims [C1] to [C10], then
    further properties of the code, [X1] onwards. *)

From Stdlib Require Import ZArith List Lia Ascii.
From stdpp Require Import base numbers list gmap pretty.

Open Scope Z_scope.

(** ** C integers *)

Definition INT_MAX : Z := 2147483647.
Definition INT_MIN : Z := -2147483648.

Definition is_int (z : Z) : Prop := INT_MIN <= z <= INT_MAX.

(** [x++] on an [int]: undefined on overflow. *)
Definition int_incr (x : Z) : option Z :=
  if decide (x < INT_MAX) then Some (x + 1) else None.

(** [x--] on an [int]: undefined on overflow. *)
Definition int_decr (x : Z) : option Z :=
  if decide (INT_MIN < x) then Some (x - 1) else None.

(** [a % b] on [int]s: truncated remainder; undefined when [b] is zero
    and when the quotient overflows ([INT_MIN % -1]). *)
Definition int_mod (a b : Z) : option Z :=
  if decide (b = 0) then None
  else if decide (a = INT_MIN /\ b = -1) then None
  else Some (Z.rem a b).

(** ** Data model *)

(** Modelled from the spec: [ts_entry_t] is declared in [ts_hashmap.h],
    which is not part of the sources.  An entry has an integer key, an
    integer value and a link to the next entry of its chain; the link is
    the tail of the list the entry heads. *)
Record ts_entry_t : Type := Entry { entry_key : Z; entry_value : Z }.

(** A chain: the entries reachable from a bucket head through [next]. *)
Abbreviation chain := (list ts_entry_t) (only parsing).

(** A [pthread_mutex_t]: locked or not. *)
Abbreviation mutex := bool (only parsing).

(** Modelled from the spec: [ts_hashmap_t] is declared in
    [ts_hashmap.h], which is not part of the sources.  A map has the
    bucket heads ([table]), the bucket locks ([lock]), the capacity and
    the two counters [size] and [numOps], all three [int]s. *)
Record ts_hashmap_t : Type := Hashmap {
  map_table : list chain;
  map_lock : list mutex;
  map_capacity : Z;
  map_size : Z;
  map_numOps : Z
}.

Definition set_table (m : ts_hashmap_t) (t : list chain) : ts_hashmap_t :=
  Hashmap t (map_lock m) (map_capacity m) (map_size m) (map_numOps m).
Definition set_lock (m : ts_hashmap_t) (l : list mutex) : ts_hashmap_t :=
  Hashmap (map_table m) l (map_capacity m) (map_size m) (map_numOps m).
Definition set_size (m : ts_hashmap_t) (s : Z) : ts_hashmap_t :=
  Hashmap (map_table m) (map_lock m) (map_capacity m) s (map_numOps m).
Definition set_numOps (m : ts_hashmap_t) (n : Z) : ts_hashmap_t :=
  Hashmap (map_table m) (map_lock m) (map_capacity m) (map_size m) n.

(** ** Mutex operations performed by a call *)

Inductive event : Type :=
| Acquire (index : Z)
| Release (index : Z).

(** ** The monad of a call: map state, undefined behaviour, mutex log *)

Definition M (A : Type) : Type :=
  ts_hashmap_t -> option (A * ts_hashmap_t * list event).

Definition ret {A} (a : A) : M A := fun m => Some (a, m, []).

Definition bind {A B} (c : M A) (k : A -> M B) : M B :=
  fun m =>
    match c m with
    | None => None
    | Some (a, m1, t1) =>
        match k a m1 with
        | None => None
        | Some (b, m2, t2) => Some (b, m2, t1 ++ t2)
        end
    end.

Definition undefined {A} : M A := fun _ => None.

Definition lift {A} (o : option A) : M A :=
  fun m => match o with Some a => Some (a, m, []) | None => None end.

Definition read {A} (f : ts_hashmap_t -> A) : M A := fun m => Some (f m, m, []).

Definition write (f : ts_hashmap_t -> ts_hashmap_t) : M unit :=
  fun m => Some (tt, f m, []).

Definition emit (e : event) : M unit := fun m => Some (tt, m, [e]).

Notation "x <- c ;; k" := (bind c (fun x => k))
  (at level 100, c at next level, right associativity).
Notation "c ;; k" := (bind c (fun _ => k))
  (at level 100, right associativity).

(** ** Array accesses *)

(** Position of a C index in an array, when it is not negative. *)
Definition slot {A} (l : list A) (index : Z) : option A :=
  if decide (0 <= index) then l !! Z.to_nat index else None.

(** [map->table[index]] as an rvalue. *)
Definition load_table (index : Z) : M chain :=
  t <- read map_table ;; lift (slot t index).

(** [map->table[index] = c], and writes through the [next] and [value]
    fields of the entries of that chain. *)
Definition store_table (index : Z) (c : chain) : M unit :=
  t <- read map_table ;;
  _ <- lift (slot t index) ;;
  write (fun m => set_table m (<[Z.to_nat index := c]> t)).

(** [pthread_mutex_lock(&map->lock[index])]: in a single thread a mutex
    that is already locked never becomes free, so the call has no
    result. *)
Definition pthread_mutex_lock (index : Z) : M unit :=
  l <- read map_lock ;;
  held <- lift (slot l index) ;;
  if held : bool then undefined
  else write (fun m => set_lock m (<[Z.to_nat index := true]> l)) ;;
       emit (Acquire index).

(** [pthread_mutex_unlock(&map->lock[index])]: undefined on a mutex that
    is not locked. *)
Definition pthread_mutex_unlock (index : Z) : M unit :=
  l <- read map_lock ;;
  held <- lift (slot l index) ;;
  if held : bool
  then write (fun m => set_lock m (<[Z.to_nat index := false]> l)) ;;
       emit (Release index)
  else undefined.

(** [map->numOps++] *)
Definition incr_numOps : M unit :=
  n <- read map_numOps ;;
  n' <- lift (int_incr n) ;;
  write (fun m => set_numOps m n').

(** [map->size++] *)
Definition incr_size : M unit :=
  s <- read map_size ;;
  s' <- lift (int_incr s) ;;
  write (fun m => set_size m s').

(** [map->size--] *)
Definition decr_size : M unit :=
  s <- read map_size ;;
  s' <- lift (int_decr s) ;;
  write (fun m => set_size m s').

(** [key % map->capacity] *)
Definition bucket_index (key : Z) : M Z :=
  c <- read map_capacity ;; lift (int_mod key c).

(** ** initmap *)

(** [calloc] gives [capacity] NULL heads, the loop initialises
    [capacity] mutexes, both counters start at zero. *)
Definition initmap (capacity : Z) : ts_hashmap_t :=
  Hashmap (replicate (Z.to_nat capacity) [])
          (replicate (Z.to_nat capacity) false)
          capacity 0 0.

(** ** get *)

(** The [while (entry != NULL)] loop of [get]: [Some value] when the
    loop returns from inside, [None] when it runs off the chain. *)
Fixpoint get_loop (entry : chain) (key : Z) : option Z :=
  match entry with
  | [] => None
  | e :: next =>
      if decide (entry_key e = key) then Some (entry_value e)
      else get_loop next key
  end.

Definition get (key : Z) : M Z :=
  incr_numOps ;;
  index <- bucket_index key ;;
  pthread_mutex_lock index ;;
  entry <- load_table index ;;
  match get_loop entry key with
  | Some value =>
      pthread_mutex_unlock index ;;
      ret value
  | None =>
      pthread_mutex_unlock index ;;
      ret INT_MAX
  end.

(** ** put *)

(** How the [while (cur_entry != NULL)] loop of [put] ends: by the
    return of the overwrite branch ([cur_entry->value = value]), by the
    return of the append branch ([cur_entry->next = new_entry]), or by
    its condition becoming false.  The chain carried is the chain from
    [cur_entry] on after the write of the branch. *)
Inductive put_exit : Type :=
| Overwritten (c : chain) (old_value : Z)
| Appended (c : chain)
| Exhausted.

(** The exit of the loop seen from one entry earlier in the chain. *)
Definition put_exit_cons (e : ts_entry_t) (x : put_exit) : put_exit :=
  match x with
  | Overwritten c old_value => Overwritten (e :: c) old_value
  | Appended c => Appended (e :: c)
  | Exhausted => Exhausted
  end.

Fixpoint put_loop (cur_entry : chain) (key value : Z)
    (new_entry : ts_entry_t) : put_exit :=
  match cur_entry with
  | [] => Exhausted
  | e :: next =>
      if decide (entry_key e = key)
      then Overwritten (Entry (entry_key e) value :: next) (entry_value e)
      else match next with
           | [] => Appended [e; new_entry]
           | _ :: _ => put_exit_cons e (put_loop next key value new_entry)
           end
  end.

Definition put (key value : Z) : M Z :=
  incr_numOps ;;
  index <- bucket_index key ;;
  pthread_mutex_lock index ;;
  cur_entry <- load_table index ;;
  let new_entry := Entry key value in
  match cur_entry with
  | [] =>
      store_table index [new_entry] ;;
      incr_size ;;
      pthread_mutex_unlock index ;;
      ret INT_MAX
  | _ :: _ =>
      match put_loop cur_entry key value new_entry with
      | Overwritten c old_value =>
          store_table index c ;;
          pthread_mutex_unlock index ;;
          ret old_value
      | Appended c =>
          store_table index c ;;
          incr_size ;;
          pthread_mutex_unlock index ;;
          ret INT_MAX
      | Exhausted =>
          pthread_mutex_unlock index ;;
          ret (-1)
      end
  end.

(** ** del *)

(** The loop [while (entry != NULL && entry->key != key)] of [del]:
    [prev] holds the entries already passed (the last one is the node
    [prev] points to; empty when [prev] is NULL), the result is the
    final [prev] and the chain starting at the final [entry]. *)
Fixpoint del_loop (prev entry : chain) (key : Z) : chain * chain :=
  match entry with
  | [] => (prev, [])
  | e :: next =>
      if decide (entry_key e = key) then (prev, entry)
      else del_loop (prev ++ [e]) next key
  end.

Definition del (key : Z) : M Z :=
  incr_numOps ;;
  index <- bucket_index key ;;
  pthread_mutex_lock index ;;
  entry <- load_table index ;;
  match entry with
  | [] =>
      pthread_mutex_unlock index ;;
      ret INT_MAX
  | e :: next =>
      if decide (entry_key e = key)
      then
        decr_size ;;
        let out := entry_value e in
        store_table index next ;;
        pthread_mutex_unlock index ;;
        ret out
      else
        match del_loop [] entry key with
        | (_, []) =>
            pthread_mutex_unlock index ;;
            ret INT_MAX
        | (prev, found :: following) =>
            let value := entry_value found in
            match prev with
            | [] => undefined (* prev->next with prev == NULL *)
            | _ :: _ =>
                store_table index (prev ++ following) ;;
                decr_size ;;
                pthread_mutex_unlock index ;;
                ret value
            end
        end
  end.

(** ** printmap *)

(** The newline character. *)
Definition newline : ascii := "010"%char.

(** The [while (entry != NULL)] loop of [printmap]: [(key,value)] for
    every entry of the chain, with [ -> ] behind every entry that has a
    successor.  [pretty] is the decimal notation [printf] gives for
    [%d]. *)
Fixpoint printmap_loop (entry : chain) : string :=
  match entry with
  | [] => EmptyString
  | e :: next =>
      "(" +:+ pretty (entry_key e) +:+ "," +:+ pretty (entry_value e) +:+ ")"
      +:+ (match next with [] => EmptyString | _ :: _ => " -> " end)
      +:+ printmap_loop next
  end.

(** The [for] loop of [printmap] from bucket [i] on, with [n] buckets
    to go: the line of each bucket, made of its index, its chain and a
    newline.  Reading [table[i]] outside the array is undefined. *)
Fixpoint printmap_for (m : ts_hashmap_t) (i : Z) (n : nat) : option string :=
  match n with
  | O => Some EmptyString
  | S n' =>
      entry ← slot (map_table m) i;
      rest ← printmap_for m (i + 1) n';
      Some ("[" +:+ pretty i +:+ "] -> " +:+ printmap_loop entry
            +:+ String newline rest)
  end.

(** [printmap]: what the call writes to the standard output.  It takes
    no mutex and changes nothing of the map. *)
Definition printmap (m : ts_hashmap_t) : option string :=
  printmap_for m 0 (Z.to_nat (map_capacity m)).

(** ** freeMap *)

(** What [freeMap] gives back: an entry ([free(entry)]), the mutex of a
    bucket ([pthread_mutex_destroy]), the two arrays and the map
    itself. *)
Inductive release : Type :=
| FreeEntry (e : ts_entry_t)
| DestroyMutex (index : Z)
| FreeLock
| FreeTable
| FreeStruct.

(** [pthread_mutex_destroy(&map->lock[index])]: destroying a mutex that
    is held is undefined. *)
Definition pthread_mutex_destroy (m : ts_hashmap_t) (index : Z)
  : option release :=
  match slot (map_lock m) index with
  | Some false => Some (DestroyMutex index)
  | _ => None
  end.

(** The [while (entry != NULL)] loop of [freeMap] with [map->size] at
    [size]: every entry of the chain is freed, head first, and
    [map->size--] follows each [free].  The result is [map->size] at the
    end of the loop and what was freed. *)
Fixpoint freeMap_loop (entry : chain) (size : Z) : option (Z * list release) :=
  match entry with
  | [] => Some (size, [])
  | e :: next =>
      size' ← int_decr size;
      '(size'', freed) ← freeMap_loop next size';
      Some (size'', FreeEntry e :: freed)
  end.

(** The [for] loop of [freeMap] from bucket [i] on, with [n] buckets to
    go: the chain of the bucket is freed, then its mutex is destroyed. *)
Fixpoint freeMap_for (m : ts_hashmap_t) (i : Z) (n : nat) (size : Z)
  : option (Z * list release) :=
  match n with
  | O => Some (size, [])
  | S n' =>
      entry ← slot (map_table m) i;
      '(size', freed) ← freeMap_loop entry size;
      destroyed ← pthread_mutex_destroy m i;
      '(size'', rest) ← freeMap_for m (i + 1) n' size';
      Some (size'', freed ++ destroyed :: rest)
  end.

(** [freeMap]: the value of [map->size] when the map itself is freed,
    and everything the call gave back, in order.  It takes no mutex. *)
Definition freeMap (m : ts_hashmap_t) : option (Z * list release) :=
  '(size, freed) ← freeMap_for m 0 (Z.to_nat (map_capacity m)) (map_size m);
  Some (size, freed ++ [FreeLock; FreeTable; FreeStruct]).
(** * Specification vocabulary *)

(** ** Keys, buckets and bindings *)

(** The value [get], [put] and [del] return for an absent key. *)
Definition NOT_FOUND : Z := INT_MAX.

(** The bucket a key is sent to. *)
Definition index_of (m : ts_hashmap_t) (key : Z) : Z :=
  Z.rem key (map_capacity m).

(** The chain of the bucket a key is sent to. *)
Definition bucket (m : ts_hashmap_t) (key : Z) : option chain :=
  slot (map_table m) (index_of m key).

(** The keys of a chain, head first. *)
Definition keys (c : chain) : list Z := entry_key <$> c.

(** [first_match c key before e rest]: [e] is the first entry of [c] with
    key [key], [before] are the entries in front of it and [rest] the
    entries behind. *)
Definition first_match (c : chain) (key : Z)
    (before : chain) (e : ts_entry_t) (rest : chain) : Prop :=
  c = before ++ e :: rest /\ (key ∉ keys before) /\ entry_key e = key.

(** The entries reachable across all bucket chains. *)
Definition entries (m : ts_hashmap_t) : list ts_entry_t := mjoin (map_table m).

(** The distinct keys present. *)
Definition present_keys (m : ts_hashmap_t) : gset Z :=
  list_to_set (keys (entries m)).

(** The number of entries with a given key. *)
Definition count_key (m : ts_hashmap_t) (key : Z) : nat :=
  length (filter (fun e => entry_key e = key) (entries m)).

(** The value a key is bound to: that of the first entry with the key
    in the key's bucket. *)
Definition lookup_key (m : ts_hashmap_t) (key : Z) : option Z :=
  c ← bucket m key; get_loop c key.

(** ** Maps between calls *)

(** What [initmap] allocates and no call changes: a positive capacity
    and that many bucket heads and mutexes. *)
Record allocated (m : ts_hashmap_t) : Prop := Allocated {
  alloc_capacity : 0 < map_capacity m;
  alloc_table : length (map_table m) = Z.to_nat (map_capacity m);
  alloc_lock : length (map_lock m) = Z.to_nat (map_capacity m)
}.

(** A map between calls: allocated, and every mutex free. *)
Record well_formed (m : ts_hashmap_t) : Prop := WellFormed {
  wf_allocated : allocated m;
  wf_free : Forall (fun held => held = false) (map_lock m)
}.

(** A call on [key] that gets into its critical section within C's
    defined behaviour: the map is well formed, [numOps] can be
    incremented, and the bucket index is not negative. *)
Record callable (m : ts_hashmap_t) (key : Z) : Prop := Callable {
  callable_wf : well_formed m;
  callable_numOps : map_numOps m < INT_MAX;
  callable_index : 0 <= index_of m key
}.

(** The representation invariant: the map is well formed, every entry
    sits in the bucket of its key, no chain repeats a key, [size] is
    the number of entries, and [size] never exceeds [numOps]. *)
Record map_inv (m : ts_hashmap_t) : Prop := MapInv {
  inv_wf : well_formed m;
  inv_placed : forall i c e,
    map_table m !! i = Some c -> e ∈ c ->
    index_of m (entry_key e) = Z.of_nat i;
  inv_nodup : forall i c, map_table m !! i = Some c -> NoDup (keys c);
  inv_size : map_size m = Z.of_nat (length (entries m));
  inv_numOps : map_size m <= map_numOps m
}.

(** ** What a call computes

    The right-hand sides of the execution equations [get_eq],
    [put_eq] and [del_eq] below. *)

(** What every call does before it branches: count the operation,
    compute the bucket index, lock the bucket's mutex, read the bucket
    head.  [enter] gives the index and the chain read, when all four are
    defined. *)
Definition enter (m : ts_hashmap_t) (key : Z) : option (Z * chain) :=
  match int_incr (map_numOps m) with
  | None => None
  | Some _ =>
      match int_mod key (map_capacity m) with
      | None => None
      | Some index =>
          match slot (map_lock m) index with
          | Some false =>
              match slot (map_table m) index with
              | Some c => Some (index, c)
              | None => None
              end
          | _ => None
          end
      end
  end.

(** The map inside the critical section of a call on bucket [index]. *)
Definition locked (m : ts_hashmap_t) (index : Z) : ts_hashmap_t :=
  Hashmap (map_table m) (<[Z.to_nat index := true]> (map_lock m))
          (map_capacity m) (map_size m) (map_numOps m + 1).

(** The map after a call that left bucket [index] with chain [c] and
    the size counter at [s]. *)
Definition after (m : ts_hashmap_t) (index : Z) (c : chain) (s : Z)
  : ts_hashmap_t :=
  Hashmap (<[Z.to_nat index := c]> (map_table m)) (map_lock m)
          (map_capacity m) s (map_numOps m + 1).

(** The mutex operations of a call on bucket [index]. *)
Definition critical (index : Z) : list event := [Acquire index; Release index].

(** The log of a continuation behind the log of what ran before it. *)
Definition prepend {A} (t1 : list event)
    (r : option (A * ts_hashmap_t * list event))
  : option (A * ts_hashmap_t * list event) :=
  match r with
  | None => None
  | Some (a, m, t2) => Some (a, m, t1 ++ t2)
  end.

(** The branches of [put] once the bucket is locked and its head read. *)
Definition put_branches (m : ts_hashmap_t) (index : Z) (c : chain)
    (key value : Z) : option (Z * ts_hashmap_t * list event) :=
  match c with
  | [] =>
      s ← int_incr (map_size m);
      Some (INT_MAX, after m index [Entry key value] s, critical index)
  | _ :: _ =>
      match put_loop c key value (Entry key value) with
      | Overwritten c' old_value =>
          Some (old_value, after m index c' (map_size m), critical index)
      | Appended c' =>
          s ← int_incr (map_size m);
          Some (INT_MAX, after m index c' s, critical index)
      | Exhausted =>
          Some (-1, set_numOps m (map_numOps m + 1), critical index)
      end
  end.

(** The branches of [del] once the bucket is locked and its head read. *)
Definition del_branches (m : ts_hashmap_t) (index : Z) (c : chain)
    (key : Z) : option (Z * ts_hashmap_t * list event) :=
  match c with
  | [] => Some (INT_MAX, set_numOps m (map_numOps m + 1), critical index)
  | e :: next =>
      if decide (entry_key e = key)
      then s ← int_decr (map_size m);
           Some (entry_value e, after m index next s, critical index)
      else
        match del_loop [] c key with
        | (_, []) =>
            Some (INT_MAX, set_numOps m (map_numOps m + 1), critical index)
        | (prev, found :: rest) =>
            match prev with
            | [] => None
            | _ :: _ =>
                s ← int_decr (map_size m);
                Some (entry_value found, after m index (prev ++ rest) s,
                      critical index)
            end
        end
  end.

(** ** The contract of a single call *)

(** The call [c] on map [m] returns [r] and leaves the map [m']. *)
Definition returns (c : M Z) (m : ts_hashmap_t) (r : Z) (m' : ts_hashmap_t)
  : Prop :=
  exists t, c m = Some (r, m', t).

(** The contract of [get]: the call returns; the value returned is that
    of the first entry of the bucket's chain with the key, and
    [NOT_FOUND] when the chain has no such entry. *)
Definition get_contract (m : ts_hashmap_t) (key : Z) : Prop :=
  exists c r m',
    bucket m key = Some c /\ returns (get key) m r m' /\
    ((exists before e rest, first_match c key before e rest /\ r = entry_value e)
     \/ ((key ∉ keys c) /\ r = NOT_FOUND)).

(** The three ways a [put] ends. *)
Inductive put_outcome : Type := Installed | Replaced | AppendedAtTail.

(** [put_case o c c' key value s s' r]: outcome [o] describes a [put] of
    [key], [value] that found chain [c] and size [s], left chain [c'] and
    size [s'] and returned [r]. *)
Definition put_case (o : put_outcome) (c c' : chain) (key value : Z)
    (s s' r : Z) : Prop :=
  match o with
  | Installed =>
      c = [] /\ c' = [Entry key value] /\ s' = s + 1 /\ r = NOT_FOUND
  | Replaced =>
      exists before e rest,
        first_match c key before e rest /\
        c' = before ++ Entry key value :: rest /\
        s' = s /\ r = entry_value e
  | AppendedAtTail =>
      c ≠ [] /\ (key ∉ keys c) /\
      c' = c ++ [Entry key value] /\ s' = s + 1 /\ r = NOT_FOUND
  end.

(** The contract of [put]: the call returns, exactly one of the three
    outcomes describes it, nothing but the bucket's chain and the two
    counters changes, and the loop never ends by its condition. *)
Definition put_contract (m : ts_hashmap_t) (key value : Z) : Prop :=
  exists c c' r m',
    bucket m key = Some c /\ returns (put key value) m r m' /\
    m' = after m (index_of m key) c' (map_size m') /\
    (exists! o, put_case o c c' key value (map_size m) (map_size m') r) /\
    (c ≠ [] -> put_loop c key value (Entry key value) ≠ Exhausted).

(** The three ways a [del] ends. *)
Inductive del_outcome : Type := Absent | HeadUnlinked | Relinked.

(** [del_case o c c' key s s' r]: outcome [o] describes a [del] of [key]
    that found chain [c] and size [s], left chain [c'] and size [s'] and
    returned [r].  In [Relinked], [p] is the predecessor of the entry
    removed. *)
Definition del_case (o : del_outcome) (c c' : chain) (key : Z)
    (s s' r : Z) : Prop :=
  match o with
  | Absent =>
      (key ∉ keys c) /\ c' = c /\ s' = s /\ r = NOT_FOUND
  | HeadUnlinked =>
      exists e next,
        c = e :: next /\ entry_key e = key /\
        c' = next /\ s' = s - 1 /\ r = entry_value e
  | Relinked =>
      exists before p e rest,
        first_match c key (before ++ [p]) e rest /\
        c' = before ++ p :: rest /\ s' = s - 1 /\ r = entry_value e
  end.

(** The contract of [del]: the call returns, one of the three outcomes
    describes it, and nothing but the bucket's chain and the two
    counters changes. *)
Definition del_contract (m : ts_hashmap_t) (key : Z) : Prop :=
  exists c c' r m',
    bucket m key = Some c /\ returns (del key) m r m' /\
    m' = after m (index_of m key) c' (map_size m') /\
    exists o, del_case o c c' key (map_size m) (map_size m') r.

(** [put] takes [NOT_FOUND] as a value like any other: the call
    returns, the first entry with the key then holds [NOT_FOUND], and
    [get] returns [NOT_FOUND], as it does on any map in which the key is
    not bound. *)
Definition sentinel_contract (m : ts_hashmap_t) (key : Z) : Prop :=
  exists r m1 c1,
    returns (put key NOT_FOUND) m r m1 /\
    bucket m1 key = Some c1 /\
    (exists before rest,
       first_match c1 key before (Entry key NOT_FOUND) rest) /\
    (exists m2, returns (get key) m1 NOT_FOUND m2) /\
    (forall m0 : ts_hashmap_t,
       callable m0 key -> lookup_key m0 key = None ->
       exists m0', returns (get key) m0 NOT_FOUND m0').

(** ** Sequences of calls *)

(** A call of the interface with its arguments. *)
Inductive op : Type :=
| Get (key : Z)
| Put (key value : Z)
| Del (key : Z).

(** The key a call is about. *)
Definition op_key (o : op) : Z :=
  match o with Get key | Put key _ | Del key => key end.

(** The function a call runs. *)
Definition exec (o : op) : M Z :=
  match o with
  | Get key => get key
  | Put key value => put key value
  | Del key => del key
  end.

(** The calls of [ops] made one after the other by a single thread: the
    values they return, in order, and the map they leave. *)
Fixpoint run (ops : list op) (m : ts_hashmap_t)
  : option (list Z * ts_hashmap_t) :=
  match ops with
  | [] => Some ([], m)
  | o :: ops' =>
      match exec o m with
      | None => None
      | Some (r, m', _) =>
          match run ops' m' with
          | None => None
          | Some (rs, m'') => Some (r :: rs, m'')
          end
      end
  end.

(** The maps a single thread can get to from a freshly created one. *)
Definition reachable (m : ts_hashmap_t) : Prop :=
  exists capacity ops rs,
    0 < capacity /\ run ops (initmap capacity) = Some (rs, m).

(** Sequences of calls that stay within defined behaviour on a fresh
    map of the given capacity: every key has a bucket, and the sequence
    is short enough for the [int] counters. *)
Definition admissible (capacity : Z) (ops : list op) : Prop :=
  Forall (fun o => 0 <= Z.rem (op_key o) capacity) ops /\
  Z.of_nat (length ops) < INT_MAX.

(** Calls that leave the binding of [key] alone: no [put] and no [del]
    of [key]. *)
Definition leaves_alone (key : Z) (o : op) : Prop :=
  match o with
  | Get _ => True
  | Put k _ => k ≠ key
  | Del k => k ≠ key
  end.

(** Calls other than a [put] of [key]. *)
Definition does_not_put (key : Z) (o : op) : Prop :=
  match o with
  | Put k _ => k ≠ key
  | _ => True
  end.

(** The binding of [k] after call [o], from its binding [old] before:
    the calls seen as updates of a finite map from keys to values. *)
Definition bound_after (o : op) (k : Z) (old : option Z) : option Z :=
  match o with
  | Get _ => old
  | Put key value => if decide (k = key) then Some value else old
  | Del key => if decide (k = key) then None else old
  end.

(** ** The mutex operations of one call *)

(** The mutexes a thread holds after a mutex operation. *)
Definition hold (held : list Z) (e : event) : list Z :=
  match e with
  | Acquire index => index :: held
  | Release index => filter (fun j => j ≠ index) held
  end.

(** The mutexes held at the end of a log. *)
Definition held_after (held : list Z) (t : list event) : list Z :=
  foldl hold held t.

(** The largest number of mutexes held at once along a log. *)
Fixpoint max_held (held : list Z) (t : list event) : nat :=
  match t with
  | [] => length held
  | e :: t' => Nat.max (length held) (max_held (hold held e) t')
  end.

(** The mutexes a log acquires, in order. *)
Definition acquired (t : list event) : list Z :=
  omap (fun e => match e with Acquire i => Some i | Release _ => None end) t.

(** ** Threads sharing one map *)

(** The mutex operations of a call on a map of the given capacity. *)
Definition op_events (capacity : Z) (o : op) : list event :=
  critical (Z.rem (op_key o) capacity).

(** The mutex operations of a thread that makes the calls [calls] one
    after the other. *)
Definition thread_events (capacity : Z) (calls : list op) : list event :=
  mjoin (op_events capacity <$> calls).

(** A system: the mutex operations each thread still has to perform,
    and the thread that holds each locked mutex. *)
Record system : Type := System {
  pending : list (list event);
  holder : gmap Z nat
}.

(** [pthread_mutex_lock] goes through on a free mutex only (a thread
    that asks for a held mutex waits); [pthread_mutex_unlock] frees the
    mutex of its holder. *)
Inductive step : system -> system -> Prop :=
| step_acquire p h tid index rest :
    p !! tid = Some (Acquire index :: rest) ->
    h !! index = None ->
    step (System p h) (System (<[tid := rest]> p) (<[index := tid]> h))
| step_release p h tid index rest :
    p !! tid = Some (Release index :: rest) ->
    h !! index = Some tid ->
    step (System p h) (System (<[tid := rest]> p) (delete index h)).

(** The threads start with all their calls ahead and all mutexes free. *)
Definition start (capacity : Z) (programs : list (list op)) : system :=
  System (thread_events capacity <$> programs) ∅.

(** Every thread is through with its calls. *)
Definition finished (s : system) : Prop :=
  forall tid t, pending s !! tid = Some t -> t = [].

(** No execution of threads calling [get], [put] and [del] on a map of
    the given capacity, with keys that have a bucket, gets stuck before
    every thread is through. *)
Definition deadlock_free (capacity : Z) : Prop :=
  forall programs s,
    Forall (Forall (fun o => 0 <= Z.rem (op_key o) capacity)) programs ->
    rtc step (start capacity programs) s ->
    finished s \/ exists s', step s s'.

(** The mutex operations still ahead of a thread between two calls. *)
Definition between_calls (t : list event) : Prop :=
  exists indices : list Z, t = mjoin (critical <$> indices).

(** Every thread is either between calls, holding nothing, or about to
    release the one mutex it holds; every held mutex is held by a thread
    about to release it. *)
Record sys_inv (s : system) : Prop := SysInv {
  sys_threads : forall tid t,
    pending s !! tid = Some t ->
    between_calls t \/
    exists index rest,
      t = Release index :: rest /\ between_calls rest /\
      holder s !! index = Some tid;
  sys_holders : forall index tid,
    holder s !! index = Some tid ->
    exists rest, pending s !! tid = Some (Release index :: rest)
}.

(** ** The scenario of the specification *)

(** Capacity 4: put(1,10), put(5,20), get(1), get(5), put(1,99),
    delete(5), get(5). *)
Definition scenario : list op :=
  [Put 1 10; Put 5 20; Get 1; Get 5; Put 1 99; Del 5; Get 5].

(** The map halfway through the scenario, after the two first [put]s,
    and at its end. *)
Definition scenario_half : ts_hashmap_t :=
  Hashmap [[]; [Entry 1 10; Entry 5 20]; []; []]
          [false; false; false; false] 4 2 2.

Definition scenario_end : ts_hashmap_t :=
  Hashmap [[]; [Entry 1 99]; []; []] [false; false; false; false] 4 1 7.

(** ** Tactics *)

(** Discharges [callable m key] on a concrete map and key by
    evaluation. *)
Ltac callable_by_evaluation :=
  split;
  [ split; [split; [reflexivity..]|repeat constructor]
  | reflexivity
  | vm_compute; discriminate ].

(** * Vocabulary for the properties beyond the claims *)

(** ** Chains as association lists *)

(** Replace the value of the first entry with the key, or append a new
    entry when no entry has it. *)
Fixpoint upsert (c : chain) (key value : Z) : chain :=
  match c with
  | [] => [Entry key value]
  | e :: c' =>
      if decide (entry_key e = key) then Entry (entry_key e) value :: c'
      else e :: upsert c' key value
  end.

(** Drop the first entry with the key. *)
Fixpoint remove (c : chain) (key : Z) : chain :=
  match c with
  | [] => []
  | e :: c' =>
      if decide (entry_key e = key) then c' else e :: remove c' key
  end.

(** The chain a call leaves in its bucket. *)
Definition chain_after (o : op) (c : chain) : chain :=
  match o with
  | Get _ => c
  | Put key value => upsert c key value
  | Del key => remove c key
  end.

(** The size counter a call leaves, from the counter [s] it found;
    nothing when the increment or decrement overflows. *)
Definition size_after (o : op) (c : chain) (s : Z) : option Z :=
  match o with
  | Get _ => Some s
  | Put key _ => if decide (key ∈ keys c) then Some s else int_incr s
  | Del key => if decide (key ∈ keys c) then int_decr s else Some s
  end.

(** ** A finite map as reference *)




(** ** Threads in their critical sections *)

(** [thread_log capacity calls t]: [t] is what the code logs, call after
    call, for a thread that makes the calls [calls], each on a map of
    capacity [capacity] as the call finds it, and each returning. *)
Inductive thread_log (capacity : Z) : list op -> list event -> Prop :=
| thread_log_nil : thread_log capacity [] []
| thread_log_cons o calls m r m' t ts :
    map_capacity m = capacity ->
    exec o m = Some (r, m', t) ->
    thread_log capacity calls ts ->
    thread_log capacity (o :: calls) (t ++ ts).

(** Threads about to make the calls of [programs] on a map of capacity
    [capacity]: each has ahead of it the mutex operations its calls
    perform, and no mutex is held. *)
Definition started (capacity : Z) (programs : list (list op)) (s : system)
  : Prop :=
  Forall2 (thread_log capacity) programs (pending s) /\ holder s = ∅.

(** Thread [tid] is between the lock and the unlock of bucket [index]. *)
Definition in_critical_section (s : system) (tid : nat) (index : Z) : Prop :=
  exists rest, pending s !! tid = Some (Release index :: rest).

(** The mutex operations all threads still have to perform. *)
Definition work_left (s : system) : nat := length (mjoin (pending s)).

(** ** What printmap writes *)

(** The characters of a decimal numeral: the digits and the sign. *)
Definition numeric (a : ascii) : bool :=
  match a with
  | "0" | "1" | "2" | "3" | "4" | "5" | "6" | "7" | "8" | "9" | "-" => true
  | _ => false
  end%char.

(** Strings made of the characters of numerals only. *)
Fixpoint numeral (s : string) : Prop :=
  match s with
  | EmptyString => True
  | String a s' => numeric a = true /\ numeral s'
  end.

(** How many times a character occurs in a string. *)
Fixpoint occurrences (a : ascii) (s : string) : nat :=
  match s with
  | EmptyString => 0
  | String b s' => (if decide (b = a) then 1 else 0) + occurrences a s'
  end%nat.

(** Decides the comparisons of characters left by [occurrences] on a
    string that is written out. *)
Ltac count_characters :=
  repeat match goal with
  | |- context [decide (?a = ?b)] =>
      first [ rewrite (decide_True (P := a = b)) by reflexivity
            | rewrite (decide_False (P := a = b))
                by (unfold newline; discriminate) ]
  end.

(** ** What freeMap gives back *)

(** The entries freed along a log, in order. *)
Definition freed_entries (l : list release) : list ts_entry_t :=
  omap (fun r => match r with FreeEntry e => Some e | _ => None end) l.

(** The mutexes destroyed along a log, in order. *)
Definition destroyed_mutexes (l : list release) : list Z :=
  omap (fun r => match r with DestroyMutex i => Some i | _ => None end) l.

(** Bucket by bucket from index [k] on: the entries of the chain, head
    first, then the mutex of the bucket. *)
Fixpoint bucket_releases (k : nat) (cs : list (list ts_entry_t))
  : list release :=
  match cs with
  | [] => []
  | c :: cs' =>
      (FreeEntry <$> c) ++ DestroyMutex (Z.of_nat k) :: bucket_releases (S k) cs'
  end.
(** * Execution equations *)

(** ** The monad and the arrays *)

Lemma bind_eq {A B} (c : M A) (k : A -> M B) m :
  bind c k m =
  match c m with
  | None => None
  | Some (a, m1, t1) => prepend t1 (k a m1)
  end.
Proof. reflexivity. Qed.

Lemma prepend_nil {A} (r : option (A * ts_hashmap_t * list event)) :
  prepend [] r = r.
Proof. by destruct r as [[[a m] t]|]. Qed.

Lemma slot_Some {A} (l : list A) index x :
  slot l index = Some x <-> 0 <= index /\ l !! Z.to_nat index = Some x.
Proof.
  unfold slot. destruct (decide (0 <= index)); [tauto|].
  split; [done|]. by intros [? _].
Qed.

Lemma slot_insert {A} (l : list A) index x y :
  slot l index = Some x -> slot (<[Z.to_nat index := y]> l) index = Some y.
Proof.
  rewrite !slot_Some. intros [? Hl]. split; [done|].
  apply list_lookup_insert_eq. by eapply lookup_lt_Some.
Qed.

Lemma insert_back {A} (l : list A) index x y :
  slot l index = Some x ->
  <[Z.to_nat index := x]> (<[Z.to_nat index := y]> l) = l.
Proof.
  rewrite slot_Some. intros [_ Hl].
  rewrite list_insert_insert_eq. by rewrite list_insert_id.
Qed.

Lemma insert_same {A} (l : list A) index x :
  slot l index = Some x -> <[Z.to_nat index := x]> l = l.
Proof. rewrite slot_Some. intros [_ ?]. by apply list_insert_id. Qed.

(** ** Prologue, epilogue and the three functions *)

(** The common prologue of [get], [put] and [del]. *)
Lemma enter_run {A} (k : Z -> chain -> M A) m key :
  (incr_numOps ;;
   index <- bucket_index key ;;
   pthread_mutex_lock index ;;
   entry <- load_table index ;;
   k index entry) m =
  match enter m key with
  | None => None
  | Some (index, c) => prepend [Acquire index] (k index c (locked m index))
  end.
Proof.
  destruct m as [t l cap s n]. unfold enter.
  cbn [map_numOps map_capacity map_lock map_table].
  rewrite bind_eq. unfold incr_numOps at 1. rewrite !bind_eq. cbn.
  destruct (int_incr n) as [n'|] eqn:Hn; cbn; [|done].
  assert (n' = n + 1) as ->
    by (unfold int_incr in Hn; case_decide; congruence).
  rewrite bind_eq. unfold bucket_index at 1. rewrite !bind_eq. cbn.
  destruct (int_mod key cap) as [index|]; cbn; [|done].
  rewrite bind_eq. unfold pthread_mutex_lock at 1. rewrite !bind_eq. cbn.
  destruct (slot l index) as [[]|]; cbn; [done| |done].
  rewrite bind_eq. unfold load_table at 1. rewrite !bind_eq. cbn.
  destruct (slot t index) as [c|]; cbn; [|done].
  by destruct (k index c _) as [[[a m'] t']|].
Qed.

(** The epilogue of every exit path: unlock the bucket and return. *)
Lemma leave_run (r : Z) m index :
  slot (map_lock m) index = Some true ->
  (pthread_mutex_unlock index ;; ret r) m =
  Some (r, set_lock m (<[Z.to_nat index := false]> (map_lock m)),
        [Release index]).
Proof.
  intros Hl. rewrite bind_eq. unfold pthread_mutex_unlock.
  rewrite !bind_eq. cbn. rewrite Hl. reflexivity.
Qed.

Lemma store_run {A} (k : M A) m index c c0 :
  slot (map_table m) index = Some c0 ->
  (store_table index c ;; k) m =
  k (set_table m (<[Z.to_nat index := c]> (map_table m))).
Proof.
  intros Ht. rewrite bind_eq. unfold store_table.
  rewrite !bind_eq. cbn. rewrite Ht. cbn. apply prepend_nil.
Qed.

Lemma incr_size_run {A} (k : M A) m :
  (incr_size ;; k) m =
  match int_incr (map_size m) with
  | None => None
  | Some s => k (set_size m s)
  end.
Proof.
  rewrite bind_eq. unfold incr_size. rewrite !bind_eq. cbn.
  destruct (int_incr (map_size m)); cbn; [|done]. apply prepend_nil.
Qed.

Lemma decr_size_run {A} (k : M A) m :
  (decr_size ;; k) m =
  match int_decr (map_size m) with
  | None => None
  | Some s => k (set_size m s)
  end.
Proof.
  rewrite bind_eq. unfold decr_size. rewrite !bind_eq. cbn.
  destruct (int_decr (map_size m)); cbn; [|done]. apply prepend_nil.
Qed.

(** Leaving the critical section of a call that set the bucket's chain
    to [c] and the size counter to [s]. *)
Lemma leave_locked (r : Z) m index c s :
  slot (map_lock m) index = Some false ->
  (pthread_mutex_unlock index ;; ret r)
    (set_size (set_table (locked m index)
                 (<[Z.to_nat index := c]> (map_table m))) s) =
  Some (r, after m index c s, [Release index]).
Proof.
  intros Hl. rewrite leave_run by (cbn; by eapply slot_insert).
  unfold after, set_lock. cbn. by rewrite (insert_back _ _ _ _ Hl).
Qed.

Lemma leave_locked_same (r : Z) m index :
  slot (map_lock m) index = Some false ->
  (pthread_mutex_unlock index ;; ret r) (locked m index) =
  Some (r, set_numOps m (map_numOps m + 1), [Release index]).
Proof.
  intros Hl. rewrite leave_run by (cbn; by eapply slot_insert).
  unfold set_lock, set_numOps. cbn. by rewrite (insert_back _ _ _ _ Hl).
Qed.

Lemma enter_lock_table m key index c :
  enter m key = Some (index, c) ->
  slot (map_lock m) index = Some false /\ slot (map_table m) index = Some c.
Proof.
  unfold enter. repeat case_match; try done. by intros [= <- <-].
Qed.

(** [get] reads the chain of its bucket and changes [numOps] only. *)
Lemma get_eq (m : ts_hashmap_t) (key : Z) :
  get key m =
  match enter m key with
  | None => None
  | Some (index, c) =>
      Some (default INT_MAX (get_loop c key),
            set_numOps m (map_numOps m + 1), critical index)
  end.
Proof.
  unfold get. rewrite enter_run.
  destruct (enter m key) as [[index c]|] eqn:He; [|done].
  apply enter_lock_table in He as [Hl Ht].
  destruct (get_loop c key); by rewrite leave_locked_same.
Qed.

Lemma put_eq (m : ts_hashmap_t) (key value : Z) :
  put key value m =
  match enter m key with
  | None => None
  | Some (index, c) => put_branches m index c key value
  end.
Proof.
  unfold put. rewrite enter_run.
  destruct (enter m key) as [[index c]|] eqn:He; [|done].
  apply enter_lock_table in He as [Hl Ht]. unfold put_branches.
  destruct c as [|e next].
  - rewrite (store_run _ (locked m index) _ _ _ Ht), incr_size_run.
    cbn [map_size locked set_table].
    destruct (int_incr (map_size m)) as [s|]; [|done].
    by rewrite (leave_locked _ _ _ _ _ Hl).
  - destruct (put_loop (e :: next) key value (Entry key value)) as [c' old|c'|].
    + rewrite (store_run _ (locked m index) _ _ _ Ht).
      by rewrite (leave_locked _ _ _ c' (map_size m) Hl).
    + rewrite (store_run _ (locked m index) _ _ _ Ht), incr_size_run.
      cbn [map_size locked set_table].
      destruct (int_incr (map_size m)) as [s|]; [|done].
      by rewrite (leave_locked _ _ _ _ _ Hl).
    + by rewrite leave_locked_same.
Qed.

Lemma del_eq (m : ts_hashmap_t) (key : Z) :
  del key m =
  match enter m key with
  | None => None
  | Some (index, c) => del_branches m index c key
  end.
Proof.
  unfold del. rewrite enter_run.
  destruct (enter m key) as [[index c]|] eqn:He; [|done].
  apply enter_lock_table in He as [Hl Ht]. unfold del_branches.
  destruct c as [|e next].
  - by rewrite leave_locked_same.
  - case_decide.
    + rewrite decr_size_run. cbn [map_size locked].
      destruct (int_decr (map_size m)) as [s|]; [|done].
      rewrite (store_run _ (set_size (locked m index) s) _ _ _ Ht).
      change (set_table (set_size (locked m index) s) _)
        with (set_size (set_table (locked m index)
                          (<[Z.to_nat index := next]> (map_table m))) s).
      by rewrite (leave_locked _ _ _ _ _ Hl).
    + destruct (del_loop [] (e :: next) key) as [prev [|found rest]].
      * by rewrite leave_locked_same.
      * destruct prev as [|p prev]; [done|].
        rewrite (store_run _ (locked m index) _ _ _ Ht), decr_size_run.
        cbn [map_size locked set_table].
        destruct (int_decr (map_size m)) as [s|]; [|done].
        by rewrite (leave_locked _ _ _ _ _ Hl).
Qed.

(** * Chains *)

Lemma keys_cons e c : keys (e :: c) = entry_key e :: keys c.
Proof. reflexivity. Qed.

Lemma keys_app c1 c2 : keys (c1 ++ c2) = keys c1 ++ keys c2.
Proof. apply fmap_app. Qed.

Lemma first_match_here e rest :
  first_match (e :: rest) (entry_key e) [] e rest.
Proof. repeat split. cbn. apply not_elem_of_nil. Qed.

Lemma first_match_later x c key before e rest :
  entry_key x ≠ key ->
  first_match c key before e rest ->
  first_match (x :: c) key (x :: before) e rest.
Proof.
  intros Hx (-> & Hb & He). repeat split; [|done].
  rewrite keys_cons, not_elem_of_cons. done.
Qed.

Lemma first_match_cons_inv x c key before e rest :
  first_match (x :: c) key before e rest ->
  (entry_key x = key /\ before = [] /\ e = x /\ rest = c) \/
  (entry_key x ≠ key /\ exists before', before = x :: before' /\
     first_match c key before' e rest).
Proof.
  intros (Hc & Hb & He). destruct before as [|y before']; simplify_eq/=.
  - left. done.
  - right. rewrite not_elem_of_cons in Hb. destruct Hb as [Hy Hb].
    split; [done|]. exists before'. done.
Qed.

(** A chain either has a first entry with the key or none at all. *)
Lemma first_match_dec (c : chain) (key : Z) :
  (exists before e rest, first_match c key before e rest) \/ key ∉ keys c.
Proof.
  induction c as [|x c IH].
  - right. apply not_elem_of_nil.
  - destruct (decide (entry_key x = key)) as [<-|Hx].
    + left. eauto using first_match_here.
    + destruct IH as [(before & e & rest & H)|H].
      * left. eauto using first_match_later.
      * right. rewrite keys_cons, not_elem_of_cons. done.
Qed.

Lemma first_match_elem c key before e rest :
  first_match c key before e rest -> key ∈ keys c.
Proof.
  intros (-> & _ & <-). rewrite keys_app, keys_cons.
  apply elem_of_app. right. apply elem_of_cons. by left.
Qed.

(** The first match is unique. *)
Lemma first_match_unique c key b1 e1 r1 b2 e2 r2 :
  first_match c key b1 e1 r1 -> first_match c key b2 e2 r2 ->
  b1 = b2 /\ e1 = e2 /\ r1 = r2.
Proof.
  revert b1 b2. induction c as [|x c IH]; intros b1 b2 H1 H2.
  - destruct H1 as (H1 & _). by destruct b1.
  - apply first_match_cons_inv in H1, H2.
    destruct H1 as [(? & -> & -> & ->)|(? & b1' & -> & H1)],
             H2 as [(? & -> & -> & ->)|(? & b2' & -> & H2)]; try done.
    destruct (IH _ _ H1 H2) as (-> & -> & ->). done.
Qed.

(** ** The loop of [get] *)

Lemma get_loop_found c key before e rest :
  first_match c key before e rest -> get_loop c key = Some (entry_value e).
Proof.
  revert before. induction c as [|x c IH]; intros before H.
  - destruct H as (H & _). by destruct before.
  - apply first_match_cons_inv in H. cbn.
    destruct H as [(? & -> & -> & ->)|(? & b' & -> & H)];
      case_decide; try done. eauto.
Qed.

Lemma get_loop_absent c key : key ∉ keys c -> get_loop c key = None.
Proof.
  induction c as [|x c IH]; [done|].
  rewrite keys_cons, not_elem_of_cons. intros [Hx Hc]. cbn.
  case_decide; [done|]. auto.
Qed.

(** ** The loop of [put] *)

Lemma put_loop_found c key value new_entry before e rest :
  first_match c key before e rest ->
  put_loop c key value new_entry =
  Overwritten (before ++ Entry key value :: rest) (entry_value e).
Proof.
  revert before. induction c as [|x c IH]; intros before H.
  - destruct H as (H & _). by destruct before.
  - apply first_match_cons_inv in H. cbn [put_loop].
    destruct H as [(Hx & -> & -> & ->)|(? & b' & -> & H)]; case_decide; try done.
    + by rewrite Hx.
    + destruct c as [|y c]; [destruct H as (H & _); by destruct b'|].
      by rewrite (IH _ H).
Qed.

Lemma put_loop_absent c key value new_entry :
  c ≠ [] -> key ∉ keys c ->
  put_loop c key value new_entry = Appended (c ++ [new_entry]).
Proof.
  induction c as [|x c IH]; [done|]. intros _.
  rewrite keys_cons, not_elem_of_cons. intros [Hx Hc].
  cbn [put_loop]. case_decide; [done|].
  destruct c as [|y c]; [done|]. by rewrite IH.
Qed.

(** The loop of [put] leaves through its condition on the empty chain
    only. *)
Lemma put_loop_exhausted c key value new_entry :
  put_loop c key value new_entry = Exhausted <-> c = [].
Proof.
  split; [|by intros ->].
  destruct c as [|x c]; [done|]. intros H. exfalso.
  destruct (first_match_dec (x :: c) key) as [(before & e & rest & Hm)|Ha].
  - by rewrite (put_loop_found _ _ _ _ _ _ _ Hm) in H.
  - by rewrite put_loop_absent in H.
Qed.

(** ** The loop of [del] *)

Lemma del_loop_found prev c key before e rest :
  first_match c key before e rest ->
  del_loop prev c key = (prev ++ before, e :: rest).
Proof.
  revert prev before. induction c as [|x c IH]; intros prev before H.
  - destruct H as (H & _). by destruct before.
  - apply first_match_cons_inv in H. cbn [del_loop].
    destruct H as [(Hx & -> & -> & ->)|(? & b' & -> & H)]; case_decide; try done.
    + by rewrite app_nil_r.
    + rewrite (IH _ _ H). by rewrite <- app_assoc.
Qed.

Lemma del_loop_absent prev c key :
  key ∉ keys c -> del_loop prev c key = (prev ++ c, []).
Proof.
  revert prev. induction c as [|x c IH]; intros prev.
  - intros _. by rewrite app_nil_r.
  - rewrite keys_cons, not_elem_of_cons. intros [Hx Hc]. cbn [del_loop].
    case_decide; [done|]. rewrite IH by done. by rewrite <- app_assoc.
Qed.

(** * Maps between calls *)

Lemma index_of_lt m key : 0 < map_capacity m -> index_of m key < map_capacity m.
Proof.
  intros Hc. unfold index_of.
  pose proof (Z.rem_bound_abs key (map_capacity m)). lia.
Qed.

Lemma initmap_allocated capacity : 0 < capacity -> allocated (initmap capacity).
Proof. intros Hc. split; cbn; [done|apply length_replicate..]. Qed.

Lemma initmap_well_formed capacity : 0 < capacity -> well_formed (initmap capacity).
Proof.
  intros Hc. split; [by apply initmap_allocated|]. cbn.
  by apply Forall_replicate.
Qed.

Lemma enter_Some m key index c :
  enter m key = Some (index, c) <->
  map_numOps m < INT_MAX /\ int_mod key (map_capacity m) = Some index /\
  slot (map_lock m) index = Some false /\ slot (map_table m) index = Some c.
Proof.
  split.
  - unfold enter, int_incr. case_decide; [|done].
    destruct (int_mod key (map_capacity m)) as [i|]; [|done].
    destruct (slot (map_lock m) i) as [[]|] eqn:Hl; [done| |done].
    destruct (slot (map_table m) i) as [c'|] eqn:Ht; [|done].
    by intros [= <- <-].
  - intros (Hn & Hi & Hl & Ht). unfold enter, int_incr.
    rewrite decide_True by done. by rewrite Hi, Hl, Ht.
Qed.

Lemma int_mod_Some a b r :
  int_mod a b = Some r -> b ≠ 0 /\ r = Z.rem a b.
Proof.
  unfold int_mod. repeat case_decide; try done. by intros [= <-].
Qed.

Lemma enter_index m key index c :
  enter m key = Some (index, c) ->
  index = index_of m key /\ bucket m key = Some c /\ 0 <= index.
Proof.
  rewrite enter_Some. intros (_ & [_ ->]%int_mod_Some & _ & Ht).
  repeat split; [done|]. by apply slot_Some in Ht as [? _].
Qed.

(** A callable key has a bucket, and the call gets as far as reading
    its head. *)
Lemma enter_callable m key :
  callable m key ->
  exists c, bucket m key = Some c /\ enter m key = Some (index_of m key, c).
Proof.
  intros [[[Hc Ht Hl] Hf] Hn Hi].
  pose proof (index_of_lt m key Hc) as Hlt.
  destruct (lookup_lt_is_Some_2 (map_table m) (Z.to_nat (index_of m key)))
    as [c Hc']; [lia|].
  destruct (lookup_lt_is_Some_2 (map_lock m) (Z.to_nat (index_of m key)))
    as [held Hh]; [lia|].
  pose proof (Forall_lookup_1 _ _ _ _ Hf Hh) as ->.
  exists c. split; [by apply slot_Some|].
  apply enter_Some. repeat split; try done; try by apply slot_Some.
  unfold int_mod, index_of. repeat case_decide; try done; lia.
Qed.

(** A call that is defined leaves a well-formed map well formed. *)
Lemma after_well_formed m index c s :
  well_formed m -> well_formed (after m index c s).
Proof.
  intros [[Hc Ht Hl] Hf]. repeat split; cbn; try done. by rewrite length_insert.
Qed.

Lemma set_numOps_well_formed m n : well_formed m -> well_formed (set_numOps m n).
Proof. intros [[Hc Ht Hl] Hf]. by repeat split. Qed.

Lemma bucket_after m key index c s :
  index = index_of m key -> is_Some (bucket m key) ->
  bucket (after m index c s) key = Some c.
Proof.
  intros -> [c0 Hc0]. unfold bucket, index_of in *. cbn.
  by eapply slot_insert.
Qed.

Lemma after_same m index c :
  slot (map_table m) index = Some c ->
  after m index c (map_size m) = set_numOps m (map_numOps m + 1).
Proof.
  intros Ht. unfold after, set_numOps. by rewrite (insert_same _ _ _ Ht).
Qed.

Lemma int_incr_Some x : x < INT_MAX -> int_incr x = Some (x + 1).
Proof. intros. unfold int_incr. by rewrite decide_True. Qed.

Lemma int_decr_Some x : INT_MIN < x -> int_decr x = Some (x - 1).
Proof. intros. unfold int_decr. by rewrite decide_True. Qed.


(** * Single calls *)

Lemma callable_initmap capacity key :
  0 < capacity -> 0 <= Z.rem key capacity -> callable (initmap capacity) key.
Proof.
  intros Hc Hk. split; [by apply initmap_well_formed|by cbn|done].
Qed.

Lemma put_case_unique o1 o2 c c1 c2 key value s s1 s2 r1 r2 :
  put_case o1 c c1 key value s s1 r1 ->
  put_case o2 c c2 key value s s2 r2 ->
  o1 = o2.
Proof.
  destruct o1, o2; cbn; try done.
  - intros (-> & _) (before & e & rest & (Hc & _) & _). by destruct before.
  - by intros (-> & _) (? & _).
  - intros (before & e & rest & (Hc & _) & _) (-> & _). by destruct before.
  - intros (before & e & rest & Hm & _) (_ & Ha & _).
    by apply first_match_elem in Hm.
  - by intros (? & _) (-> & _).
  - intros (_ & Ha & _) (before & e & rest & Hm & _).
    by apply first_match_elem in Hm.
Qed.

(** ** The branches of [put] *)

(** The branch [put] takes is decided by the chain alone; [s'] is the
    size counter the branch asks for. *)
Lemma put_branches_cases m index c key value :
  exists c' r s' o,
    put_case o c c' key value (map_size m) s' r /\
    put_branches m index c key value =
      (if decide (s' = map_size m) then Some (map_size m)
       else int_incr (map_size m)) ≫= fun s =>
      Some (r, after m index c' s, critical index).
Proof.
  destruct c as [|x c].
  - exists [Entry key value], NOT_FOUND, (map_size m + 1), Installed.
    split; [done|]. cbn. rewrite decide_False by lia. done.
  - destruct (first_match_dec (x :: c) key) as [(before & e & rest & Hm)|Ha].
    + exists (before ++ Entry key value :: rest), (entry_value e),
        (map_size m), Replaced.
      split; [by exists before, e, rest|].
      cbn [put_branches]. rewrite (put_loop_found _ _ value _ _ _ _ Hm).
      by rewrite decide_True.
    + exists ((x :: c) ++ [Entry key value]), NOT_FOUND,
        (map_size m + 1), AppendedAtTail.
      split; [done|].
      cbn [put_branches]. rewrite put_loop_absent by done.
      rewrite decide_False by lia. done.
Qed.

Lemma put_inv m key value r m' t :
  put key value m = Some (r, m', t) ->
  exists index c c' o,
    enter m key = Some (index, c) /\
    m' = after m index c' (map_size m') /\ t = critical index /\
    put_case o c c' key value (map_size m) (map_size m') r.
Proof.
  rewrite put_eq. destruct (enter m key) as [[index c]|] eqn:He; [|done].
  destruct (put_branches_cases m index c key value)
    as (c' & r0 & s' & o & Hcase & ->).
  intros Hrun. exists index, c, c', o. split; [done|].
  case_decide as Hs.
  - cbn in Hrun. injection Hrun as <- <- <-. cbn. by rewrite Hs in Hcase.
  - unfold int_incr in Hrun. case_decide; [|done].
    cbn in Hrun. injection Hrun as <- <- <-. cbn.
    destruct o; cbn in Hcase; [| |].
    + destruct Hcase as (? & ? & -> & ?). done.
    + destruct Hcase as (? & ? & ? & ? & ? & ? & ?). done.
    + destruct Hcase as (? & ? & ? & -> & ?). done.
Qed.

Lemma put_defined m key value index c :
  enter m key = Some (index, c) -> map_size m < INT_MAX ->
  exists r m', put key value m = Some (r, m', critical index).
Proof.
  intros He Hs. rewrite put_eq, He.
  destruct (put_branches_cases m index c key value)
    as (c' & r & s' & o & _ & ->).
  case_decide; [|rewrite int_incr_Some by done]; cbn; eauto.
Qed.

(** Overwriting never touches the size counter, so it is defined even
    when the counter is at its bound. *)
Lemma put_defined_present m key value index c before e rest :
  enter m key = Some (index, c) -> first_match c key before e rest ->
  put key value m =
    Some (entry_value e,
          after m index (before ++ Entry key value :: rest) (map_size m),
          critical index).
Proof.
  intros He Hm. rewrite put_eq, He. unfold put_branches.
  destruct c as [|x c]; [destruct Hm as (Hm & _); by destruct before|].
  by rewrite (put_loop_found _ _ value _ _ _ _ Hm).
Qed.

(** ** The branches of [del] *)

Lemma del_branches_cases m index c key :
  slot (map_table m) index = Some c ->
  exists c' r s' o,
    del_case o c c' key (map_size m) s' r /\
    del_branches m index c key =
      (if decide (s' = map_size m) then Some (map_size m)
       else int_decr (map_size m)) ≫= fun s =>
      Some (r, after m index c' s, critical index).
Proof.
  intros Ht.
  destruct (first_match_dec c key) as [(before & e & rest & Hm)|Ha].
  - destruct before as [|x before _] using rev_ind.
    + destruct Hm as (-> & _ & Hk).
      exists rest, (entry_value e), (map_size m - 1), HeadUnlinked.
      split; [by exists e, rest|].
      cbn. rewrite decide_True by done. rewrite decide_False by lia. done.
    + exists (before ++ x :: rest), (entry_value e), (map_size m - 1), Relinked.
      split; [by exists before, x, e, rest|].
      pose proof Hm as (Hc' & Hb' & Hk).
      destruct c as [|y c]; [by destruct before|]. cbn [del_branches].
      assert (entry_key y ≠ key) as Hy.
      { intros Hy. apply Hb'. rewrite keys_app.
        destruct before; simplify_eq/=; set_solver. }
      rewrite decide_False by done.
      rewrite (del_loop_found _ _ _ _ _ _ Hm). cbn [app].
      destruct (before ++ [x]) as [|z zs] eqn:Hz; [by destruct before|].
      rewrite <- Hz. rewrite decide_False by lia.
      by rewrite <- app_assoc.
  - exists c, NOT_FOUND, (map_size m), Absent. split; [done|].
    rewrite decide_True by done. cbn. rewrite after_same by done.
    destruct c as [|y c]; [done|].
    cbn [del_branches]. pose proof Ha as Ha'.
    rewrite keys_cons, not_elem_of_cons in Ha'. destruct Ha' as [Hy _].
    rewrite decide_False by congruence.
    by rewrite del_loop_absent.
Qed.

Lemma del_inv m key r m' t :
  del key m = Some (r, m', t) ->
  exists index c c' o,
    enter m key = Some (index, c) /\
    m' = after m index c' (map_size m') /\ t = critical index /\
    del_case o c c' key (map_size m) (map_size m') r.
Proof.
  rewrite del_eq. destruct (enter m key) as [[index c]|] eqn:He; [|done].
  pose proof (enter_lock_table _ _ _ _ He) as [_ Ht].
  destruct (del_branches_cases m index c key Ht)
    as (c' & r0 & s' & o & Hcase & ->).
  intros Hrun. exists index, c, c', o. split; [done|].
  case_decide as Hs.
  - cbn in Hrun. injection Hrun as <- <- <-. cbn. by rewrite Hs in Hcase.
  - unfold int_decr in Hrun. case_decide; [|done].
    cbn in Hrun. injection Hrun as <- <- <-. cbn.
    destruct o; cbn in Hcase; [| |].
    + destruct Hcase as (? & ? & ? & ?). done.
    + destruct Hcase as (? & ? & ? & ? & ? & -> & ?).
      repeat split; try done. cbn. eauto 10.
    + destruct Hcase as (? & ? & ? & ? & ? & ? & -> & ?).
      repeat split; try done. cbn. eauto 10.
Qed.

Lemma del_defined m key index c :
  enter m key = Some (index, c) -> INT_MIN < map_size m ->
  exists r m', del key m = Some (r, m', critical index).
Proof.
  intros He Hs. rewrite del_eq, He.
  pose proof (enter_lock_table _ _ _ _ He) as [_ Ht].
  destruct (del_branches_cases m index c key Ht)
    as (c' & r & s' & o & _ & ->).
  case_decide; [|rewrite int_decr_Some by done]; cbn; eauto.
Qed.

(** ** get *)

Lemma get_run m key index c :
  enter m key = Some (index, c) ->
  get key m = Some (default NOT_FOUND (get_loop c key),
                    set_numOps m (map_numOps m + 1), critical index).
Proof. intros He. by rewrite get_eq, He. Qed.

Lemma get_inv m key r m' t :
  get key m = Some (r, m', t) ->
  exists index c,
    enter m key = Some (index, c) /\
    m' = set_numOps m (map_numOps m + 1) /\ t = critical index /\
    r = default NOT_FOUND (get_loop c key).
Proof.
  rewrite get_eq. destruct (enter m key) as [[index c]|] eqn:He; [|done].
  intros [= <- <- <-]. by exists index, c.
Qed.

(** * The representation invariant *)

Lemma length_join_insert {A} (t : list (list A)) i c c' :
  t !! i = Some c ->
  (length (mjoin (<[i := c']> t)) + length c =
   length (mjoin t) + length c')%nat.
Proof.
  revert i. induction t as [|x t IH]; intros i Hi; [done|].
  destruct i as [|i]; simpl in *.
  - injection Hi as ->. rewrite !length_app. lia.
  - rewrite !length_app. specialize (IH _ Hi). lia.
Qed.

Lemma elem_of_join_lookup {A} (t : list (list A)) x :
  x ∈ mjoin t <-> exists i c, t !! i = Some c /\ x ∈ c.
Proof.
  rewrite list_elem_of_join. split.
  - intros (c & Hx & [i Hi]%list_elem_of_lookup_1). eauto.
  - intros (i & c & Hi & Hx). exists c. split; [done|].
    by eapply list_elem_of_lookup_2.
Qed.

(** Chains whose keys are pairwise apart join into a list without
    repeated keys. *)
Lemma NoDup_keys_join (t : list chain) :
  (forall i c, t !! i = Some c -> NoDup (keys c)) ->
  (forall i j ci cj k,
     t !! i = Some ci -> t !! j = Some cj ->
     k ∈ keys ci -> k ∈ keys cj -> i = j) ->
  NoDup (keys (mjoin t)).
Proof.
  induction t as [|c t IH]; intros Hn Hd; [constructor|].
  cbn. rewrite keys_app. apply NoDup_app. split; [|split].
  - by apply (Hn 0%nat).
  - intros k Hk Hk'. unfold keys in Hk'.
    apply list_elem_of_fmap in Hk' as (e & -> & He).
    apply elem_of_join_lookup in He as (j & cj & Hj & He).
    assert (0%nat = S j) as Hbad; [|done].
    apply (Hd 0%nat (S j) c cj (entry_key e)); try done.
    by apply list_elem_of_fmap_2.
  - apply IH.
    + intros i ci Hi. by apply (Hn (S i)).
    + intros i j ci cj k Hi Hj Hki Hkj.
      assert (S i = S j) as [= ->]; [|done].
      by apply (Hd (S i) (S j) ci cj k).
Qed.

Lemma map_inv_NoDup m : map_inv m -> NoDup (keys (entries m)).
Proof.
  intros [Hwf Hp Hn _ _]. apply NoDup_keys_join; [done|].
  intros i j ci cj k Hi Hj Hki Hkj. unfold keys in *.
  apply list_elem_of_fmap in Hki as (ei & -> & Hei).
  apply list_elem_of_fmap in Hkj as (ej & Hk & Hej).
  pose proof (Hp _ _ _ Hi Hei) as H1.
  pose proof (Hp _ _ _ Hj Hej) as H2.
  rewrite Hk in H1. lia.
Qed.

Lemma count_key_NoDup (l : list ts_entry_t) key :
  NoDup (keys l) ->
  (length (filter (fun e => entry_key e = key) l) <= 1)%nat.
Proof.
  induction l as [|e l IH]; [cbn; lia|].
  rewrite keys_cons, NoDup_cons. intros [He Hl].
  rewrite filter_cons. case_decide as Hk; [|auto].
  cbn. destruct (filter (fun e => entry_key e = key) l) as [|e' l'] eqn:Hf;
    [cbn; lia|].
  assert (e' ∈ filter (fun e => entry_key e = key) l) as Hin
    by (rewrite Hf; apply list_elem_of_here).
  apply list_elem_of_filter in Hin as [Hk' He'].
  destruct He. rewrite Hk, <- Hk'. by apply list_elem_of_fmap_2.
Qed.

Lemma initmap_entries capacity : entries (initmap capacity) = [].
Proof.
  unfold entries. cbn. induction (Z.to_nat capacity) as [|n IH]; [done|].
  cbn. done.
Qed.

Lemma initmap_inv capacity : 0 < capacity -> map_inv (initmap capacity).
Proof.
  intros Hc. split.
  - by apply initmap_well_formed.
  - intros i c e [-> _]%lookup_replicate He. by apply elem_of_nil in He.
  - intros i c [-> _]%lookup_replicate. constructor.
  - by rewrite initmap_entries.
  - done.
Qed.

(** A call that leaves its bucket with a chain of entries of that
    bucket, without repeated keys, and moves the size counter by the
    change in length, keeps the invariant. *)
Lemma after_inv m index c c' s :
  map_inv m -> slot (map_table m) index = Some c ->
  (forall e, e ∈ c' -> index_of m (entry_key e) = index) ->
  NoDup (keys c') ->
  s = map_size m + Z.of_nat (length c') - Z.of_nat (length c) ->
  s <= map_numOps m + 1 ->
  map_inv (after m index c' s).
Proof.
  intros [Hwf Hp Hn Hs Ho] [Hi Ht]%slot_Some Hp' Hn' -> Ho'. split.
  - by apply after_well_formed.
  - intros i x e. cbn [after map_table]. unfold index_of. cbn [map_capacity].
    destruct (decide (i = Z.to_nat index)) as [->|Hne].
    + rewrite list_lookup_insert_eq by (by eapply lookup_lt_Some).
      intros [= <-] He. rewrite Z2Nat.id by done. by apply Hp'.
    + rewrite list_lookup_insert_ne by done. apply Hp.
  - intros i x. cbn [after map_table].
    destruct (decide (i = Z.to_nat index)) as [->|Hne].
    + rewrite list_lookup_insert_eq by (by eapply lookup_lt_Some).
      by intros [= <-].
    + rewrite list_lookup_insert_ne by done. apply Hn.
  - unfold entries in *. cbn [after map_table map_size].
    pose proof (length_join_insert (map_table m) _ c c' Ht). lia.
  - done.
Qed.

Lemma set_numOps_inv m :
  map_inv m -> map_inv (set_numOps m (map_numOps m + 1)).
Proof.
  intros [Hwf Hp Hn Hs Ho]. split; try done.
  - by apply set_numOps_well_formed.
  - cbn. lia.
Qed.

Lemma inv_bucket m index c :
  map_inv m -> slot (map_table m) index = Some c ->
  NoDup (keys c) /\ forall e, e ∈ c -> index_of m (entry_key e) = index.
Proof.
  intros [_ Hp Hn _ _] [Hi Ht]%slot_Some. split; [by eapply Hn|].
  intros e He. rewrite (Hp _ _ _ Ht He). lia.
Qed.

Lemma put_case_inv o c c' key value s s' r (P : Z -> Prop) :
  put_case o c c' key value s s' r ->
  NoDup (keys c) -> (forall e, e ∈ c -> P (entry_key e)) -> P key ->
  NoDup (keys c') /\ (forall e, e ∈ c' -> P (entry_key e)) /\
  s' = s + Z.of_nat (length c') - Z.of_nat (length c) /\ s' <= s + 1.
Proof.
  intros Hcase Hn Hp Hk. destruct o; cbn in Hcase.
  - destruct Hcase as (-> & -> & -> & _). repeat split; [|cbn..|lia].
    + apply NoDup_singleton.
    + by intros e ->%list_elem_of_singleton.
    + lia.
  - destruct Hcase as (before & e & rest & (-> & _ & <-) & -> & -> & _).
    assert (keys (before ++ Entry (entry_key e) value :: rest) =
            keys (before ++ e :: rest)) as Hkeys
      by (by rewrite !keys_app, !keys_cons).
    repeat split; [by rewrite Hkeys| |rewrite !length_app; cbn; lia|lia].
    intros x. rewrite elem_of_app, elem_of_cons.
    intros [Hx|[->|Hx]]; [apply Hp; set_solver|done|apply Hp; set_solver].
  - destruct Hcase as (_ & Ha & -> & -> & _).
    repeat split; [| |rewrite length_app; cbn; lia|lia].
    + rewrite keys_app. apply NoDup_app. repeat split; [done| |].
      * intros k Hk1 ->%list_elem_of_singleton. done.
      * apply NoDup_singleton.
    + intros x. rewrite elem_of_app, list_elem_of_singleton.
      intros [Hx| ->]; [by apply Hp|done].
Qed.

Lemma del_case_inv o c c' key s s' r (P : Z -> Prop) :
  del_case o c c' key s s' r ->
  NoDup (keys c) -> (forall e, e ∈ c -> P (entry_key e)) ->
  NoDup (keys c') /\ (forall e, e ∈ c' -> P (entry_key e)) /\
  s' = s + Z.of_nat (length c') - Z.of_nat (length c) /\ s' <= s.
Proof.
  intros Hcase Hn Hp. destruct o; cbn in Hcase.
  - destruct Hcase as (_ & -> & -> & _). repeat split; try done; lia.
  - destruct Hcase as (e & next & -> & _ & -> & -> & _).
    rewrite keys_cons, NoDup_cons in Hn. destruct Hn as [_ Hn].
    repeat split; [done| |cbn; lia|lia].
    intros x Hx. apply Hp. set_solver.
  - destruct Hcase as (before & p & e & rest & (-> & _ & _) & -> & -> & _).
    repeat split; [| |rewrite !length_app; cbn; rewrite ?length_app; cbn; lia|lia].
    + rewrite <- app_assoc in Hn. cbn in Hn.
      rewrite keys_app, !keys_cons in Hn. rewrite keys_app, keys_cons.
      apply NoDup_app in Hn as (H1 & H2 & H3).
      apply NoDup_app. repeat split; [done| |].
      * intros k Hk Hk'. apply (H2 k Hk).
        rewrite !elem_of_cons in *. tauto.
      * apply NoDup_cons in H3 as [H3 H4]. apply NoDup_cons in H4 as [H4 H5].
        apply NoDup_cons. split; [|done].
        rewrite not_elem_of_cons in H3. tauto.
    + intros x Hx. apply Hp. rewrite elem_of_app, elem_of_cons in Hx.
      rewrite !elem_of_app, !elem_of_cons. tauto.
Qed.

(** Every call that returns keeps the invariant. *)
Lemma exec_inv o m r m' t :
  map_inv m -> exec o m = Some (r, m', t) -> map_inv m'.
Proof.
  intros Hinv Hrun. destruct o as [key|key value|key]; cbn in Hrun.
  - apply get_inv in Hrun as (index & c & _ & -> & _). by apply set_numOps_inv.
  - apply put_inv in Hrun as (index & c & c' & o & He & -> & _ & Hcase).
    cbn [after map_size] in *.
    pose proof (enter_lock_table _ _ _ _ He) as [_ Ht].
    pose proof (enter_index _ _ _ _ He) as (Hi & _ & _).
    destruct (inv_bucket _ _ _ Hinv Ht) as [Hn Hp].
    destruct (put_case_inv _ _ _ _ _ _ _ _
                (fun k => index_of m k = index) Hcase Hn Hp)
      as (Hn' & Hp' & Hs & Hle); [done|].
    apply (after_inv m index c c'); try done.
    pose proof (inv_numOps _ Hinv). lia.
  - apply del_inv in Hrun as (index & c & c' & o & He & -> & _ & Hcase).
    cbn [after map_size] in *.
    pose proof (enter_lock_table _ _ _ _ He) as [_ Ht].
    destruct (inv_bucket _ _ _ Hinv Ht) as [Hn Hp].
    destruct (del_case_inv _ _ _ _ _ _ _
                (fun k => index_of m k = index) Hcase Hn Hp)
      as (Hn' & Hp' & Hs & Hle).
    apply (after_inv m index c c'); try done.
    pose proof (inv_numOps _ Hinv). lia.
Qed.

Lemma run_inv ops m rs m' :
  map_inv m -> run ops m = Some (rs, m') -> map_inv m'.
Proof.
  revert m rs. induction ops as [|o ops IH]; intros m rs Hinv; cbn.
  - by intros [= <- <-].
  - destruct (exec o m) as [[[r m1] t]|] eqn:Ho; [|done].
    destruct (run ops m1) as [[rs' m2]|] eqn:Hr; [|done].
    intros [= <- <-]. eapply IH; [|done]. by eapply exec_inv.
Qed.

Lemma reachable_inv m : reachable m -> map_inv m.
Proof.
  intros (capacity & ops & rs & Hc & Hrun).
  eapply run_inv; [|done]. by apply initmap_inv.
Qed.

(** * Sequences of calls *)

Lemma exec_counters o m r m' t :
  exec o m = Some (r, m', t) ->
  map_capacity m' = map_capacity m /\ map_numOps m' = map_numOps m + 1 /\
  map_lock m' = map_lock m /\ length (map_table m') = length (map_table m).
Proof.
  destruct o as [key|key value|key]; cbn; intros Hrun.
  - by apply get_inv in Hrun as (index & c & _ & -> & _).
  - apply put_inv in Hrun as (index & c & c' & o & _ & -> & _). cbn.
    by rewrite length_insert.
  - apply del_inv in Hrun as (index & c & c' & o & _ & -> & _). cbn.
    by rewrite length_insert.
Qed.

Lemma exec_enter o m r m' t :
  exec o m = Some (r, m', t) ->
  exists c, enter m (op_key o) = Some (index_of m (op_key o), c) /\
            t = critical (index_of m (op_key o)).
Proof.
  destruct o as [key|key value|key]; cbn; intros Hrun.
  - apply get_inv in Hrun as (index & c & He & _ & -> & _).
    destruct (enter_index _ _ _ _ He) as (-> & _). eauto.
  - apply put_inv in Hrun as (index & c & c' & o & He & _ & -> & _).
    destruct (enter_index _ _ _ _ He) as (-> & _). eauto.
  - apply del_inv in Hrun as (index & c & c' & o & He & _ & -> & _).
    destruct (enter_index _ _ _ _ He) as (-> & _). eauto.
Qed.

Lemma map_inv_size_bounds m : map_inv m -> 0 <= map_size m <= map_numOps m.
Proof. intros [_ _ _ Hs Ho]. lia. Qed.

(** A call is defined as soon as the key is callable and the size
    counter is away from the bounds of [int]. *)
Lemma exec_callable o m :
  callable m (op_key o) -> INT_MIN < map_size m < INT_MAX ->
  exists r m' t, exec o m = Some (r, m', t).
Proof.
  intros Hc Hs. destruct (enter_callable _ _ Hc) as (c & _ & He).
  destruct o as [key|key value|key]; cbn in *.
  - rewrite (get_run _ _ _ _ He). eauto.
  - destruct (put_defined m key value _ _ He) as (r & m' & ->); [lia|eauto].
  - destruct (del_defined m key _ _ He) as (r & m' & ->); [lia|eauto].
Qed.

(** On a map between calls, a call is defined as soon as its key has a
    bucket and [numOps] can be incremented. *)
Lemma exec_defined o m :
  map_inv m -> map_numOps m < INT_MAX -> 0 <= index_of m (op_key o) ->
  exists r m' t, exec o m = Some (r, m', t).
Proof.
  intros Hinv Hn Hi. pose proof (map_inv_size_bounds _ Hinv) as Hs.
  apply exec_callable; [split; [apply Hinv|done..]|].
  unfold INT_MIN. lia.
Qed.

Lemma run_defined_from ops m :
  map_inv m ->
  Forall (fun o => 0 <= index_of m (op_key o)) ops ->
  map_numOps m + Z.of_nat (length ops) <= INT_MAX ->
  exists rs m', run ops m = Some (rs, m').
Proof.
  revert m. induction ops as [|o ops IH]; intros m Hinv Hk Hn; cbn.
  - eauto.
  - apply Forall_cons in Hk as [Ho Hk]. cbn [length] in Hn.
    destruct (exec_defined o m Hinv) as (r & m1 & t & Hrun); [lia|done|].
    rewrite Hrun.
    destruct (exec_counters _ _ _ _ _ Hrun) as (Hcap & Hops & _).
    destruct (IH m1) as (rs & m2 & ->); [by eapply exec_inv| |lia|eauto].
    eapply Forall_impl; [done|]. intros o'. unfold index_of. by rewrite Hcap.
Qed.

(** Admissible sequences run to the end on a fresh map. *)
Lemma run_admissible capacity ops :
  0 < capacity -> admissible capacity ops ->
  exists rs m, run ops (initmap capacity) = Some (rs, m).
Proof.
  intros Hc [Hk Hn]. apply run_defined_from; [by apply initmap_inv|done|].
  cbn. lia.
Qed.

(** ** Keys present *)

Lemma present_keys_bucket m key c :
  map_inv m -> bucket m key = Some c ->
  key ∈ present_keys m <-> key ∈ keys c.
Proof.
  intros Hinv [Hi Ht]%slot_Some. unfold present_keys.
  rewrite elem_of_list_to_set. unfold keys, entries. split.
  - intros (e & -> & He)%list_elem_of_fmap.
    apply elem_of_join_lookup in He as (i & ci & Hci & He).
    pose proof (inv_placed _ Hinv _ _ _ Hci He) as Hp.
    rewrite Hp, Nat2Z.id in Ht. rewrite Hci in Ht. injection Ht as <-.
    by apply list_elem_of_fmap_2.
  - intros (e & -> & He)%list_elem_of_fmap.
    apply list_elem_of_fmap_2. apply elem_of_join_lookup. eauto.
Qed.

Lemma size_present_keys m :
  map_inv m -> size (present_keys m) = length (entries m).
Proof.
  intros Hinv. unfold present_keys.
  rewrite size_list_to_set by (by apply map_inv_NoDup).
  unfold keys. by rewrite length_fmap.
Qed.

Lemma put_size m key value r m' :
  map_inv m -> returns (put key value) m r m' ->
  map_size m' =
    if decide (key ∈ present_keys m) then map_size m else map_size m + 1.
Proof.
  intros Hinv [t Hrun].
  apply put_inv in Hrun as (index & c & c' & o & He & _ & _ & Hcase).
  destruct (enter_index _ _ _ _ He) as (_ & Hb & _).
  rewrite (decide_ext _ _ _ _ (present_keys_bucket _ _ _ Hinv Hb)).
  destruct o; cbn in Hcase.
  - destruct Hcase as (-> & _ & -> & _). rewrite decide_False; [done|].
    apply not_elem_of_nil.
  - destruct Hcase as (before & e & rest & Hm & _ & -> & _).
    rewrite decide_True; [done|]. by eapply first_match_elem.
  - destruct Hcase as (_ & Ha & _ & -> & _). by rewrite decide_False.
Qed.

Lemma del_size m key r m' :
  map_inv m -> returns (del key) m r m' ->
  map_size m' =
    if decide (key ∈ present_keys m) then map_size m - 1 else map_size m.
Proof.
  intros Hinv [t Hrun].
  apply del_inv in Hrun as (index & c & c' & o & He & _ & _ & Hcase).
  destruct (enter_index _ _ _ _ He) as (_ & Hb & _).
  rewrite (decide_ext _ _ _ _ (present_keys_bucket _ _ _ Hinv Hb)).
  destruct o; cbn in Hcase.
  - destruct Hcase as (Ha & _ & -> & _). by rewrite decide_False.
  - destruct Hcase as (e & next & -> & <- & _ & -> & _).
    rewrite decide_True; [done|]. rewrite keys_cons. apply list_elem_of_here.
  - destruct Hcase as (before & p & e & rest & Hm & _ & -> & _).
    rewrite decide_True; [done|]. by eapply first_match_elem.
Qed.

Lemma get_size m key r m' :
  returns (get key) m r m' -> map_size m' = map_size m.
Proof. intros [t Hrun]. by apply get_inv in Hrun as (? & ? & _ & -> & _). Qed.

Lemma count_key_present m key :
  key ∈ present_keys m -> (1 <= count_key m key)%nat.
Proof.
  unfold present_keys, count_key, keys.
  rewrite elem_of_list_to_set. intros (e & -> & He)%list_elem_of_fmap.
  assert (e ∈ filter (fun e' => entry_key e' = entry_key e) (entries m)) as Hin
    by (by apply list_elem_of_filter).
  destruct (filter _ (entries m)); [by apply elem_of_nil in Hin|cbn; lia].
Qed.

Lemma count_key_inv m key : map_inv m -> (count_key m key <= 1)%nat.
Proof. intros Hinv. by apply count_key_NoDup, map_inv_NoDup. Qed.

(** * Bindings *)

Lemma get_loop_app a b k :
  get_loop (a ++ b) k =
  match get_loop a k with Some v => Some v | None => get_loop b k end.
Proof.
  induction a as [|x a IH]; [done|]. cbn. by case_decide.
Qed.

Lemma get_loop_Some_elem c k v : get_loop c k = Some v -> k ∈ keys c.
Proof.
  intros Hg. destruct (first_match_dec c k) as [(b & e & r & Hm)|Ha].
  - by eapply first_match_elem.
  - by rewrite get_loop_absent in Hg.
Qed.

Lemma get_loop_cons_ne e c k :
  entry_key e ≠ k -> get_loop (e :: c) k = get_loop c k.
Proof. intros. cbn. by rewrite decide_False. Qed.

Lemma get_loop_cons_eq e c : get_loop (e :: c) (entry_key e) = Some (entry_value e).
Proof. cbn. by rewrite decide_True. Qed.

(** What [put] does to the bindings of its chain. *)
Lemma put_case_get_loop o c c' key value s s' r :
  put_case o c c' key value s s' r ->
  r = default NOT_FOUND (get_loop c key) /\
  get_loop c' key = Some value /\
  forall k, k ≠ key -> get_loop c' k = get_loop c k.
Proof.
  intros Hcase. destruct o; cbn in Hcase.
  - destruct Hcase as (-> & -> & _ & ->). repeat split.
    + apply (get_loop_cons_eq (Entry key value)).
    + intros k Hk. by apply get_loop_cons_ne.
  - destruct Hcase as (before & e & rest & Hm & -> & _ & ->).
    rewrite (get_loop_found _ _ _ _ _ Hm). destruct Hm as (-> & Hb & <-).
    repeat split.
    + rewrite get_loop_app, (get_loop_absent _ _ Hb).
      apply (get_loop_cons_eq (Entry (entry_key e) value)).
    + intros k Hk. rewrite !get_loop_app.
      destruct (get_loop before k); [done|].
      rewrite !get_loop_cons_ne; done.
  - destruct Hcase as (_ & Ha & -> & _ & ->).
    rewrite (get_loop_absent _ _ Ha). repeat split.
    + rewrite get_loop_app, (get_loop_absent _ _ Ha).
      apply (get_loop_cons_eq (Entry key value)).
    + intros k Hk. rewrite get_loop_app.
      destruct (get_loop c k); [done|]. by apply get_loop_cons_ne.
Qed.

(** What [del] does to the bindings of a chain without repeated keys. *)
Lemma del_case_get_loop o c c' key s s' r :
  del_case o c c' key s s' r -> NoDup (keys c) ->
  r = default NOT_FOUND (get_loop c key) /\
  get_loop c' key = None /\
  forall k, k ≠ key -> get_loop c' k = get_loop c k.
Proof.
  intros Hcase Hn. destruct o; cbn in Hcase.
  - destruct Hcase as (Ha & -> & _ & ->).
    by rewrite (get_loop_absent _ _ Ha).
  - destruct Hcase as (e & next & -> & <- & -> & _ & ->).
    rewrite keys_cons, NoDup_cons in Hn. destruct Hn as [Hn _].
    rewrite get_loop_cons_eq. repeat split.
    + by apply get_loop_absent.
    + intros k Hk. by rewrite get_loop_cons_ne.
  - destruct Hcase as (before & p & e & rest & Hm & -> & _ & ->).
    rewrite (get_loop_found _ _ _ _ _ Hm). destruct Hm as (-> & Hb & <-).
    rewrite keys_app, keys_cons in Hn.
    apply NoDup_app in Hn as (_ & _ & [Hn _]%NoDup_cons).
    replace (before ++ p :: rest) with ((before ++ [p]) ++ rest)
      by (by rewrite <- app_assoc).
    repeat split.
    + rewrite get_loop_app, (get_loop_absent _ _ Hb).
      by apply get_loop_absent.
    + intros k Hk. rewrite (get_loop_app (before ++ [p]) rest).
      rewrite (get_loop_app (before ++ [p]) (e :: rest)).
      destruct (get_loop (before ++ [p]) k); [done|].
      by rewrite get_loop_cons_ne.
Qed.

Lemma lookup_key_bucket m k c :
  bucket m k = Some c -> lookup_key m k = get_loop c k.
Proof. intros Hb. unfold lookup_key. by rewrite Hb. Qed.

Lemma lookup_key_after m index c c' s k :
  slot (map_table m) index = Some c ->
  lookup_key (after m index c' s) k =
  if decide (index_of m k = index) then get_loop c' k else lookup_key m k.
Proof.
  intros Ht. unfold lookup_key, bucket, index_of. cbn [after map_table map_capacity].
  case_decide as Hk.
  - rewrite Hk. by rewrite (slot_insert _ _ _ _ Ht).
  - apply slot_Some in Ht as [Hi Ht]. unfold slot.
    case_decide; [|done].
    rewrite list_lookup_insert_ne; [done|]. lia.
Qed.

Lemma lookup_key_set_numOps m n k :
  lookup_key (set_numOps m n) k = lookup_key m k.
Proof. reflexivity. Qed.

(** The value a call returns is the binding of its key before the
    call, [NOT_FOUND] standing for no binding. *)
Lemma exec_result o m r m' t :
  map_inv m -> exec o m = Some (r, m', t) ->
  r = default NOT_FOUND (lookup_key m (op_key o)).
Proof.
  intros Hinv Hrun. destruct o as [key|key value|key]; cbn in *.
  - apply get_inv in Hrun as (index & c & He & _ & _ & ->).
    destruct (enter_index _ _ _ _ He) as (_ & Hb & _).
    by rewrite (lookup_key_bucket _ _ _ Hb).
  - apply put_inv in Hrun as (index & c & c' & o & He & _ & _ & Hcase).
    destruct (enter_index _ _ _ _ He) as (_ & Hb & _).
    rewrite (lookup_key_bucket _ _ _ Hb).
    by apply put_case_get_loop in Hcase as (-> & _).
  - apply del_inv in Hrun as (index & c & c' & o & He & _ & _ & Hcase).
    destruct (enter_index _ _ _ _ He) as (_ & Hb & _).
    rewrite (lookup_key_bucket _ _ _ Hb).
    pose proof (enter_lock_table _ _ _ _ He) as [_ Ht].
    destruct (inv_bucket _ _ _ Hinv Ht) as [Hn _].
    by apply del_case_get_loop in Hcase as (-> & _).
Qed.

(** The calls update the bindings as a finite map is updated. *)
Lemma exec_lookup o m r m' t k :
  map_inv m -> exec o m = Some (r, m', t) ->
  lookup_key m' k = bound_after o k (lookup_key m k).
Proof.
  intros Hinv Hrun. destruct o as [key|key value|key]; cbn in *.
  - by apply get_inv in Hrun as (index & c & He & -> & _).
  - apply put_inv in Hrun as (index & c & c' & o & He & -> & _ & Hcase).
    destruct (enter_index _ _ _ _ He) as (-> & Hb & _).
    pose proof (enter_lock_table _ _ _ _ He) as [_ Ht].
    apply put_case_get_loop in Hcase as (_ & Hk & Hother).
    rewrite (lookup_key_after _ _ _ _ _ _ Ht).
    destruct (decide (k = key)) as [->|Hne].
    + by rewrite decide_True.
    + case_decide as Hi; [|done]. rewrite Hother by done.
      unfold lookup_key, bucket. by rewrite Hi, Ht.
  - apply del_inv in Hrun as (index & c & c' & o & He & -> & _ & Hcase).
    destruct (enter_index _ _ _ _ He) as (-> & Hb & _).
    pose proof (enter_lock_table _ _ _ _ He) as [_ Ht].
    destruct (inv_bucket _ _ _ Hinv Ht) as [Hn _].
    apply del_case_get_loop in Hcase as (_ & Hk & Hother); [|done].
    rewrite (lookup_key_after _ _ _ _ _ _ Ht).
    destruct (decide (k = key)) as [->|Hne].
    + by rewrite decide_True.
    + case_decide as Hi; [|done]. rewrite Hother by done.
      unfold lookup_key, bucket. by rewrite Hi, Ht.
Qed.

Lemma run_counters ops m rs m' :
  run ops m = Some (rs, m') -> map_capacity m' = map_capacity m.
Proof.
  revert m rs. induction ops as [|o ops IH]; intros m rs; cbn.
  - by intros [= <- <-].
  - destruct (exec o m) as [[[r m1] t]|] eqn:Ho; [|done].
    destruct (run ops m1) as [[rs' m2]|] eqn:Hr; [|done].
    intros [= <- <-]. rewrite (IH _ _ Hr).
    by apply exec_counters in Ho as (-> & _).
Qed.

(** Calls that leave a key alone leave its binding alone. *)
Lemma run_lookup_alone key ops m rs m' :
  map_inv m -> Forall (leaves_alone key) ops ->
  run ops m = Some (rs, m') -> lookup_key m' key = lookup_key m key.
Proof.
  revert m rs. induction ops as [|o ops IH]; intros m rs Hinv Hf; cbn.
  - by intros [= <- <-].
  - apply Forall_cons in Hf as [Ho Hf].
    destruct (exec o m) as [[[r m1] t]|] eqn:He; [|done].
    destruct (run ops m1) as [[rs' m2]|] eqn:Hr; [|done].
    intros [= <- <-].
    rewrite (IH _ _ (exec_inv _ _ _ _ _ Hinv He) Hf Hr).
    rewrite (exec_lookup _ _ _ _ _ key Hinv He).
    destruct o; cbn in *; [done|by rewrite decide_False..].
Qed.

(** Calls other than a [put] of the key leave it unbound. *)
Lemma run_lookup_unbound key ops m rs m' :
  map_inv m -> Forall (does_not_put key) ops ->
  run ops m = Some (rs, m') ->
  lookup_key m key = None -> lookup_key m' key = None.
Proof.
  revert m rs. induction ops as [|o ops IH]; intros m rs Hinv Hf; cbn.
  - by intros [= <- <-].
  - apply Forall_cons in Hf as [Ho Hf].
    destruct (exec o m) as [[[r m1] t]|] eqn:He; [|done].
    destruct (run ops m1) as [[rs' m2]|] eqn:Hr; [|done].
    intros [= <- <-] Hnone.
    apply (IH _ _ (exec_inv _ _ _ _ _ Hinv He) Hf Hr).
    rewrite (exec_lookup _ _ _ _ _ key Hinv He), Hnone.
    destruct o; cbn in *; [done|by rewrite decide_False|by case_decide].
Qed.

(** A bound key has a bucket, and its [get] is defined when [numOps]
    can be incremented. *)
Lemma get_defined_value m key :
  map_inv m -> map_numOps m < INT_MAX -> 0 <= index_of m key ->
  exists m', returns (get key) m (default NOT_FOUND (lookup_key m key)) m'.
Proof.
  intros Hinv Hn Hi.
  destruct (exec_defined (Get key) m Hinv Hn Hi) as (r & m' & t & Hrun).
  pose proof (exec_result _ _ _ _ _ Hinv Hrun) as Hr. cbn in *.
  exists m', t. by rewrite Hrun, Hr.
Qed.

(** After a [put], the first entry with the key holds the value put. *)
Lemma put_case_first_match o c c' key value s s' r :
  put_case o c c' key value s s' r ->
  exists before rest, first_match c' key before (Entry key value) rest.
Proof.
  intros Hcase. destruct o; cbn in Hcase.
  - destruct Hcase as (_ & -> & _). exists [], []. repeat split.
    apply not_elem_of_nil.
  - destruct Hcase as (before & e & rest & (_ & Hb & _) & -> & _).
    by exists before, rest.
  - destruct Hcase as (_ & Ha & -> & _). exists c, []. by repeat split.
Qed.

Lemma lookup_key_present m key v :
  map_inv m -> lookup_key m key = Some v -> key ∈ present_keys m.
Proof.
  intros Hinv. unfold lookup_key.
  destruct (bucket m key) as [c|] eqn:Hb; [|done]. cbn. intros Hg.
  apply (present_keys_bucket _ _ _ Hinv Hb). by eapply get_loop_Some_elem.
Qed.

(** ** Counters along a run *)

Lemma run_counters_all ops m rs m' :
  run ops m = Some (rs, m') ->
  map_numOps m' = map_numOps m + Z.of_nat (length ops) /\
  length rs = length ops /\
  map_capacity m' = map_capacity m /\
  map_lock m' = map_lock m /\
  length (map_table m') = length (map_table m).
Proof.
  revert m rs. induction ops as [|o ops IH]; intros m rs; cbn [run].
  - intros [= <- <-]. cbn. repeat split; lia.
  - destruct (exec o m) as [[[r m1] t]|] eqn:Ho; [|done].
    destruct (run ops m1) as [[rs' m2]|] eqn:Hr; [|done].
    intros [= <- <-]. apply exec_counters in Ho as (Hc & Hn & Hl & Ht).
    destruct (IH _ _ Hr) as (Hn' & Hrs & Hc' & Hl' & Ht').
    cbn [length]. repeat split; [lia|lia|congruence..].
Qed.

(** * Locking *)

Lemma thread_events_between capacity calls :
  between_calls (thread_events capacity calls).
Proof.
  exists ((fun o => Z.rem (op_key o) capacity) <$> calls).
  unfold thread_events, op_events. by rewrite <- list_fmap_compose.
Qed.

Lemma between_calls_cons e t :
  between_calls (e :: t) ->
  exists index, e = Acquire index /\
    exists rest, t = Release index :: rest /\ between_calls rest.
Proof.
  intros [indices Ht]. destruct indices as [|i indices]; [done|].
  cbn in Ht. injection Ht as -> ->. exists i. split; [done|].
  exists (mjoin (critical <$> indices)). split; [done|]. by exists indices.
Qed.

Lemma start_inv capacity programs : sys_inv (start capacity programs).
Proof.
  split; cbn.
  - intros tid t Ht. left.
    apply list_lookup_fmap_Some in Ht as (calls & -> & _).
    apply thread_events_between.
  - intros index tid Hh. by rewrite lookup_empty in Hh.
Qed.

Lemma step_inv s s' : sys_inv s -> step s s' -> sys_inv s'.
Proof.
  intros [Ht Hh] Hstep.
  destruct Hstep as [p h tid index rest Hp Hfree|p h tid index rest Hp Hheld];
    cbn in *.
  - (* acquire *)
    pose proof (lookup_lt_Some _ _ _ Hp) as Hlt.
    destruct (Ht _ _ Hp) as [Hb|(? & ? & [=] & _)].
    apply between_calls_cons in Hb as (i & [= <-] & rest' & -> & Hb).
    split; cbn.
    + intros tid' t. destruct (decide (tid' = tid)) as [->|Hne].
      * rewrite list_lookup_insert_eq by done. intros [= <-].
        right. exists index, rest'. by rewrite lookup_insert_eq.
      * rewrite list_lookup_insert_ne by done. intros Hp'.
        destruct (Ht _ _ Hp') as [?|(j & r & -> & Hr & Hj)]; [by left|].
        right. exists j, r. repeat split; [done|].
        rewrite lookup_insert_ne; [done|]. intros ->. congruence.
    + intros j tid'. destruct (decide (j = index)) as [->|Hne].
      * rewrite lookup_insert_eq. intros [= <-].
        exists rest'. by rewrite list_lookup_insert_eq.
      * rewrite lookup_insert_ne by done. intros Hj.
        destruct (Hh _ _ Hj) as [r Hr]. exists r.
        rewrite list_lookup_insert_ne; [done|]. intros ->. congruence.
  - (* release *)
    pose proof (lookup_lt_Some _ _ _ Hp) as Hlt.
    destruct (Ht _ _ Hp) as [Hb|(i & r & [= <- <-] & Hb & _)].
    { apply between_calls_cons in Hb as (? & [=] & _). }
    split; cbn.
    + intros tid' t. destruct (decide (tid' = tid)) as [->|Hne].
      * rewrite list_lookup_insert_eq by done. intros [= <-]. by left.
      * rewrite list_lookup_insert_ne by done. intros Hp'.
        destruct (Ht _ _ Hp') as [?|(j & r & -> & Hr & Hj)]; [by left|].
        right. exists j, r. repeat split; [done|].
        rewrite lookup_delete_ne; [done|]. intros ->. congruence.
    + intros j tid'. destruct (decide (j = index)) as [->|Hne].
      * by rewrite lookup_delete_eq.
      * rewrite lookup_delete_ne by done. intros Hj.
        destruct (Hh _ _ Hj) as [r Hr]. exists r.
        rewrite list_lookup_insert_ne; [done|]. intros ->. congruence.
Qed.

Lemma steps_inv s s' : sys_inv s -> rtc step s s' -> sys_inv s'.
Proof. intros Hs Hsteps. induction Hsteps; eauto using step_inv. Qed.

Lemma finished_dec (p : list (list event)) :
  (forall tid t, p !! tid = Some t -> t = []) \/
  exists tid e rest, p !! tid = Some (e :: rest).
Proof.
  induction p as [|t p IH].
  - left. intros tid t Ht. by rewrite lookup_nil in Ht.
  - destruct t as [|e rest]; [|right; by exists 0%nat, e, rest].
    destruct IH as [Hall|(tid & e & rest & Ht)].
    + left. intros [|tid] t; cbn; [by intros [= <-]|apply Hall].
    + right. by exists (S tid), e, rest.
Qed.

(** A system in which some thread has work left can take a step: a
    thread between calls wants a mutex that is free or that its holder
    is about to release. *)
Lemma progress s : sys_inv s -> finished s \/ exists s', step s s'.
Proof.
  intros [Ht Hh]. destruct s as [p h]. cbn in *.
  destruct (finished_dec p) as [Hall|(tid & e & rest & Hp)]; [by left|].
  right. destruct (Ht _ _ Hp) as [Hb|(index & r & [= -> ->] & _ & Hheld)].
  - apply between_calls_cons in Hb as (index & -> & _).
    destruct (h !! index) as [tid'|] eqn:Hi.
    + destruct (Hh _ _ Hi) as [r Hr]. eexists. by eapply step_release.
    + eexists. by eapply step_acquire.
  - eexists. by eapply step_release.
Qed.

Lemma deadlock_freedom capacity : deadlock_free capacity.
Proof.
  intros programs s _ Hsteps. apply progress.
  eapply steps_inv; [apply start_inv|done].
Qed.

Lemma critical_discipline index :
  acquired (critical index) = [index] /\
  max_held [] (critical index) = 1%nat /\
  held_after [] (critical index) = [].
Proof.
  assert (filter (fun j => j ≠ index) [index] = []) as Hf
    by (rewrite filter_cons_False by (intros Hne; by apply Hne); done).
  split; [done|]. split.
  - cbn [critical max_held hold]. by rewrite Hf.
  - unfold held_after. cbn [critical foldl hold]. by rewrite Hf.
Qed.

(** * The scenario of the specification, run on the model *)

Example scenario_run :
  run scenario (initmap 4) =
  Some ([NOT_FOUND; NOT_FOUND; 10; 20; 10; 20; NOT_FOUND], scenario_end).
Proof. vm_compute. reflexivity. Qed.

Example scenario_half_run :
  run [Put 1 10; Put 5 20] (initmap 4) =
  Some ([NOT_FOUND; NOT_FOUND], scenario_half).
Proof. vm_compute. reflexivity. Qed.

(** Bucket 1 of a map of capacity 4 with three entries: [del] of the
    middle one links its predecessor to its successor, [del] of the
    last one ends the chain at its predecessor, [put] on the middle one
    overwrites it where it stands. *)
Example del_mid_chain :
  run [Put 1 10; Put 5 20; Put 9 30; Del 5] (initmap 4) =
  Some ([NOT_FOUND; NOT_FOUND; NOT_FOUND; 20],
        Hashmap [[]; [Entry 1 10; Entry 9 30]; []; []]
                [false; false; false; false] 4 2 4).
Proof. vm_compute. reflexivity. Qed.

Example del_tail :
  run [Put 1 10; Put 5 20; Put 9 30; Del 9; Del 9] (initmap 4) =
  Some ([NOT_FOUND; NOT_FOUND; NOT_FOUND; 30; NOT_FOUND],
        Hashmap [[]; [Entry 1 10; Entry 5 20]; []; []]
                [false; false; false; false] 4 2 5).
Proof. vm_compute. reflexivity. Qed.

Example put_mid_chain :
  run [Put 1 10; Put 5 20; Put 9 30; Put 5 21] (initmap 4) =
  Some ([NOT_FOUND; NOT_FOUND; NOT_FOUND; 20],
        Hashmap [[]; [Entry 1 10; Entry 5 21; Entry 9 30]; []; []]
                [false; false; false; false] 4 3 4).
Proof. vm_compute. reflexivity. Qed.

(** A negative key that is a multiple of the capacity has bucket 0; any
    other negative key has none. *)
Example negative_keys :
  run [Put (-4) 1; Get (-4)] (initmap 4) =
    Some ([NOT_FOUND; 1],
          Hashmap [[Entry (-4) 1]; []; []; []]
                  [false; false; false; false] 4 1 2) /\
  run [Put (-3) 1] (initmap 4) = None.
Proof. split; vm_compute; reflexivity. Qed.

(** The counters are [int]s: a call that would take one past its bound
    overflows, and has no defined result. *)
Example counters_at_their_bounds :
  get 1 (set_numOps (initmap 4) INT_MAX) = None /\
  put 1 7 (set_size (initmap 4) INT_MAX) = None /\
  del 1 (set_size (Hashmap [[]; [Entry 1 7]; []; []]
                     [false; false; false; false] 4 1 1) INT_MIN) = None.
Proof. repeat split; vm_compute; reflexivity. Qed.

(** * The claims *)

(** ** get, put and del, one call at a time *)

(** C1 (as amended).  On a well-formed map whose counters can still be
    incremented, and for a key whose bucket index [key % capacity] is
    not negative, [put] returns and exactly one of three outcomes
    describes the call: the bucket was empty, the new entry is its sole
    head, [size] is one more and [NOT_FOUND] is returned; or the first
    entry with the key has its value replaced where it stands, [size]
    is unchanged and the prior value is returned; or the chain is not
    empty and has no entry with the key, the new entry is appended at
    its tail, [size] is one more and [NOT_FOUND] is returned.  The loop
    never ends by its condition, so the [return -1] behind it is never
    reached. *)
Theorem put_three_outcomes (m : ts_hashmap_t) (key value : Z) :
  callable m key -> map_size m < INT_MAX -> put_contract m key value.
Proof.
  intros Hc Hs. destruct (enter_callable m key Hc) as (c & Hb & He).
  destruct (put_defined m key value _ _ He Hs) as (r & m' & Hrun).
  destruct (put_inv _ _ _ _ _ _ Hrun) as (i & c0 & c' & o & He' & Hm' & _ & Hcase).
  rewrite He in He'. injection He' as <- <-.
  exists c, c', r, m'. split; [done|]. split; [by eexists|].
  split; [done|]. split.
  - exists o. split; [done|]. intros o' Ho'. eauto using put_case_unique.
  - intros Hne. by rewrite put_loop_exhausted.
Qed.

Lemma put_three_outcomes_witness :
  callable scenario_half 9 /\ map_size scenario_half < INT_MAX /\
  put_contract scenario_half 9 30.
Proof.
  assert (callable scenario_half 9) as Hc by callable_by_evaluation.
  assert (map_size scenario_half < INT_MAX) as Hs by reflexivity.
  split; [exact Hc|]. split; [exact Hs|].
  exact (put_three_outcomes scenario_half 9 30 Hc Hs).
Defined.

(** C1 as stated fails for a key whose bucket index is negative: with
    capacity 4 and key -1 the index is -1, the call indexes [lock] and
    [table] out of bounds and none of the three outcomes is reached. *)
Lemma put_negative_key_undefined :
  put (-1) 7 (initmap 4) = None /\ ~ put_contract (initmap 4) (-1) 7.
Proof.
  split; [reflexivity|].
  intros (c & c' & r & m' & Hb & _). vm_compute in Hb. discriminate.
Qed.

(** C2 (as amended).  On a well-formed map whose counters can still
    move, and for a key whose bucket index is not negative, [del]
    returns, by cases on the bucket's chain: no entry has the key (the
    empty chain included), the chain and [size] are unchanged and
    [NOT_FOUND] is returned; the head has the key, its successor becomes
    the head, [size] is one less and the head's value is returned; the
    first entry with the key stands behind a predecessor, the
    predecessor is linked to its successor, [size] is one less and its
    value is returned. *)
Theorem del_by_cases (m : ts_hashmap_t) (key : Z) :
  callable m key -> INT_MIN < map_size m -> del_contract m key.
Proof.
  intros Hc Hs. destruct (enter_callable m key Hc) as (c & Hb & He).
  destruct (del_defined m key _ _ He Hs) as (r & m' & Hrun).
  destruct (del_inv _ _ _ _ _ Hrun) as (i & c0 & c' & o & He' & Hm' & _ & Hcase).
  rewrite He in He'. injection He' as <- <-.
  exists c, c', r, m'. split; [done|]. split; [by eexists|].
  split; [done|]. by exists o.
Qed.

Lemma del_by_cases_witness :
  callable scenario_half 5 /\ INT_MIN < map_size scenario_half /\
  del_contract scenario_half 5.
Proof.
  assert (callable scenario_half 5) as Hc by callable_by_evaluation.
  assert (INT_MIN < map_size scenario_half) as Hs by reflexivity.
  split; [exact Hc|]. split; [exact Hs|].
  exact (del_by_cases scenario_half 5 Hc Hs).
Defined.

(** C2 as stated fails for a key whose bucket index is negative: with
    capacity 4 and key -1 the call indexes [lock] and [table] at -1 and
    returns nothing, not [NOT_FOUND]. *)
Lemma del_negative_key_undefined :
  del (-1) (initmap 4) = None /\ ~ del_contract (initmap 4) (-1).
Proof.
  split; [reflexivity|].
  intros (c & c' & r & m' & Hb & _). vm_compute in Hb. discriminate.
Qed.

(** C3 (as amended).  On a well-formed map whose [numOps] can still be
    incremented, and for a key whose bucket index is not negative, [get]
    returns the value of the first entry with the key in the key's
    bucket, and [NOT_FOUND] when the bucket has no such entry;
    [NOT_FOUND] is [INT_MAX], the largest [int]. *)
Theorem get_value_or_NOT_FOUND (m : ts_hashmap_t) (key : Z) :
  callable m key ->
  get_contract m key /\
  NOT_FOUND = INT_MAX /\ is_int NOT_FOUND /\
  forall z, is_int z -> z <= NOT_FOUND.
Proof.
  intros Hc. split; [|split; [done|split; [by vm_compute|by intros z [_ Hz]]]].
  destruct (enter_callable m key Hc) as (c & Hb & He).
  exists c, (default NOT_FOUND (get_loop c key)),
    (set_numOps m (map_numOps m + 1)).
  split; [done|]. split; [eexists; by apply get_run|].
  destruct (first_match_dec c key) as [(before & e & rest & Hm)|Ha].
  - left. exists before, e, rest. split; [done|].
    by rewrite (get_loop_found _ _ _ _ _ Hm).
  - right. split; [done|]. by rewrite (get_loop_absent _ _ Ha).
Qed.

Lemma get_value_or_NOT_FOUND_witness :
  callable scenario_half 5 /\ get_contract scenario_half 5.
Proof.
  assert (callable scenario_half 5) as Hc by callable_by_evaluation.
  split; [exact Hc|].
  exact (proj1 (get_value_or_NOT_FOUND scenario_half 5 Hc)).
Defined.

(** C3 as stated fails for a key whose bucket index is negative: with
    capacity 4 and key -1 no entry has the key, yet the call does not
    return [NOT_FOUND]: it indexes [lock] and [table] at -1. *)
Lemma get_negative_key_undefined :
  get (-1) (initmap 4) = None /\ ~ get_contract (initmap 4) (-1).
Proof.
  split; [reflexivity|].
  intros (c & r & m' & Hb & _). vm_compute in Hb. discriminate.
Qed.

(** C10 (as amended).  [put] does not reject the sentinel and does not
    treat it specially: on a well-formed map whose counters can still
    be incremented (twice, for [numOps]), and for a key whose bucket
    index is not negative, [put(map, key, INT_MAX)] returns and leaves
    [INT_MAX] as the value of the key's entry, and the [get] that
    follows returns [INT_MAX], which is also what [get] returns on any
    map in which the key is not bound. *)
Theorem put_stores_sentinel (m : ts_hashmap_t) (key : Z) :
  callable m key -> map_size m < INT_MAX -> map_numOps m + 1 < INT_MAX ->
  sentinel_contract m key.
Proof.
  intros Hc Hs Hn. destruct (enter_callable m key Hc) as (c & Hb & He).
  destruct (put_defined m key NOT_FOUND _ _ He Hs) as (r & m1 & Hrun).
  destruct (put_inv _ _ _ _ _ _ Hrun)
    as (i & c0 & c1 & o & He' & Hm1 & _ & Hcase).
  rewrite He in He'. injection He' as <- <-.
  assert (bucket m1 key = Some c1) as Hb1
    by (rewrite Hm1; apply bucket_after; [done|by rewrite Hb]).
  assert (callable m1 key) as Hc1.
  { rewrite Hm1. destruct Hc as [Hwf ? ?].
    split; [by apply after_well_formed|cbn; lia|done]. }
  exists r, m1, c1. split; [by eexists|]. split; [done|].
  split; [by eapply put_case_first_match|]. split.
  - destruct (enter_callable m1 key Hc1) as (c1' & Hb1' & He1).
    rewrite Hb1 in Hb1'. injection Hb1' as <-.
    exists (set_numOps m1 (map_numOps m1 + 1)), (critical (index_of m1 key)).
    rewrite (get_run _ _ _ _ He1).
    by apply put_case_get_loop in Hcase as (_ & -> & _).
  - intros m0 Hc0 Hnone.
    destruct (enter_callable m0 key Hc0) as (c0 & Hb0 & He0).
    exists (set_numOps m0 (map_numOps m0 + 1)), (critical (index_of m0 key)).
    rewrite (get_run _ _ _ _ He0).
    rewrite (lookup_key_bucket _ _ _ Hb0) in Hnone. by rewrite Hnone.
Qed.

Lemma put_stores_sentinel_witness :
  callable scenario_half 6 /\ map_size scenario_half < INT_MAX /\
  map_numOps scenario_half + 1 < INT_MAX /\ sentinel_contract scenario_half 6.
Proof.
  assert (callable scenario_half 6) as Hc by callable_by_evaluation.
  assert (map_size scenario_half < INT_MAX) as Hs by reflexivity.
  assert (map_numOps scenario_half + 1 < INT_MAX) as Hn by reflexivity.
  split; [exact Hc|]. split; [exact Hs|]. split; [exact Hn|].
  exact (put_stores_sentinel scenario_half 6 Hc Hs Hn).
Defined.

(** C10 as stated fails for a key whose bucket index is negative: with
    capacity 4 and key -1, [put(map, -1, INT_MAX)] does not succeed. *)
Lemma put_sentinel_negative_key_undefined :
  put (-1) INT_MAX (initmap 4) = None /\ ~ sentinel_contract (initmap 4) (-1).
Proof.
  split; [reflexivity|].
  intros (r & m1 & c1 & [t Hrun] & _). vm_compute in Hrun. discriminate.
Qed.

(** C9.  [get] is read-only: whatever the map and the key, the map a
    call to [get] leaves differs from the map it found in [numOps] only,
    which is one more; every bucket chain and [size] (and the capacity
    and the mutexes) are as before.  The call does return on a
    well-formed map whose [numOps] can be incremented, for a key whose
    bucket index is not negative. *)
Theorem get_read_only (m : ts_hashmap_t) (key : Z) :
  (callable m key -> exists r m', returns (get key) m r m') /\
  (forall r m', returns (get key) m r m' ->
     m' = set_numOps m (map_numOps m + 1) /\
     map_table m' = map_table m /\ entries m' = entries m /\
     map_size m' = map_size m /\ map_capacity m' = map_capacity m /\
     map_lock m' = map_lock m /\ map_numOps m' = map_numOps m + 1).
Proof.
  split.
  - intros Hc. destruct (enter_callable _ _ Hc) as (c & _ & He).
    eexists _, _, _. by apply get_run.
  - intros r m' [t Hrun].
    by apply get_inv in Hrun as (index & c & _ & -> & _).
Qed.

Lemma get_read_only_witness :
  returns (get 5) scenario_half 20 (set_numOps scenario_half 3) /\
  map_table (set_numOps scenario_half 3) = map_table scenario_half.
Proof.
  assert (returns (get 5) scenario_half 20 (set_numOps scenario_half 3)) as Hr
    by (exists (critical 1); reflexivity).
  split; [exact Hr|].
  exact (proj1 (proj2 (proj2 (get_read_only scenario_half 5) 20 _ Hr))).
Defined.



(** ** Sequences of calls from a fresh map *)

(** C4.  After any sequence of [put], [get] and [del] calls on a fresh
    map, [size] is the number of entries reachable across all bucket
    chains, which is the number of distinct keys present; from there a
    [put] of a new key adds one to [size], a [put] of a key present
    leaves it, a [del] of a key present takes one off, a [del] of an
    absent key leaves it, and so does a [get].  (A sequence runs to its
    end when every key has a bucket and it has fewer than [INT_MAX]
    calls.) *)
Theorem size_counts_entries (capacity : Z) (ops : list op) :
  0 < capacity ->
  (admissible capacity ops ->
   exists rs m, run ops (initmap capacity) = Some (rs, m)) /\
  (forall rs m, run ops (initmap capacity) = Some (rs, m) ->
     map_size m = Z.of_nat (length (entries m)) /\
     map_size m = Z.of_nat (size (present_keys m)) /\
     (forall key value r m', returns (put key value) m r m' ->
        map_size m' =
          if decide (key ∈ present_keys m) then map_size m
          else map_size m + 1) /\
     (forall key r m', returns (del key) m r m' ->
        map_size m' =
          if decide (key ∈ present_keys m) then map_size m - 1
          else map_size m) /\
     (forall key r m', returns (get key) m r m' ->
        map_size m' = map_size m)).
Proof.
  intros Hc. split; [by apply run_admissible|]. intros rs m Hrun.
  assert (map_inv m) as Hinv by (apply reachable_inv; by exists capacity, ops, rs).
  split; [apply Hinv|]. split.
  { rewrite size_present_keys by done. apply Hinv. }
  split; [intros key value r m' Hr; by eapply put_size|].
  split; [intros key r m' Hr; by eapply del_size|].
  intros key r m'. apply get_size.
Qed.

Lemma size_counts_entries_witness :
  0 < 4 /\
  run scenario (initmap 4) =
    Some ([NOT_FOUND; NOT_FOUND; 10; 20; 10; 20; NOT_FOUND], scenario_end) /\
  map_size scenario_end = Z.of_nat (length (entries scenario_end)).
Proof.
  assert (0 < 4) as Hc by lia.
  assert (run scenario (initmap 4) =
    Some ([NOT_FOUND; NOT_FOUND; 10; 20; 10; 20; NOT_FOUND], scenario_end))
    as Hrun by (vm_compute; reflexivity).
  split; [exact Hc|]. split; [exact Hrun|].
  exact (proj1 (proj2 (size_counts_entries 4 scenario Hc) _ _ Hrun)).
Defined.

(** C5.  In every map a sequence of [put], [get] and [del] calls leads
    to from a fresh map, no two entries across all bucket chains have
    the same key, every entry sits in the bucket of its key, and every
    further call keeps it so; after a [put], exactly one entry has the
    key put.  (A sequence runs to its end when every key has a bucket
    and it has fewer than [INT_MAX] calls.) *)
Theorem one_entry_per_key (capacity : Z) (ops : list op) :
  0 < capacity ->
  (admissible capacity ops ->
   exists rs m, run ops (initmap capacity) = Some (rs, m)) /\
  (forall rs m, run ops (initmap capacity) = Some (rs, m) ->
     NoDup (keys (entries m)) /\
     (forall key, (count_key m key <= 1)%nat) /\
     (forall i c e,
        map_table m !! i = Some c -> e ∈ c ->
        index_of m (entry_key e) = Z.of_nat i) /\
     (forall o r m' t, exec o m = Some (r, m', t) ->
        NoDup (keys (entries m')) /\
        forall key, (count_key m' key <= 1)%nat) /\
     (forall key value r m', returns (put key value) m r m' ->
        count_key m' key = 1%nat)).
Proof.
  intros Hc. split; [by apply run_admissible|]. intros rs m Hrun.
  assert (map_inv m) as Hinv by (apply reachable_inv; by exists capacity, ops, rs).
  split; [by apply map_inv_NoDup|].
  split; [intros; by apply count_key_inv|].
  split; [apply Hinv|]. split.
  - intros o r m' t Ho. pose proof (exec_inv _ _ _ _ _ Hinv Ho) as Hinv'.
    split; [by apply map_inv_NoDup|]. intros. by apply count_key_inv.
  - intros key value r m' [t Hput].
    pose proof (exec_inv (Put key value) _ _ _ _ Hinv Hput) as Hinv'.
    pose proof (exec_lookup (Put key value) _ _ _ _ key Hinv Hput) as Hl.
    cbn in Hl. rewrite decide_True in Hl by done.
    pose proof (count_key_present _ _ (lookup_key_present _ _ _ Hinv' Hl)).
    pose proof (count_key_inv m' key Hinv'). lia.
Qed.

Lemma one_entry_per_key_witness :
  0 < 4 /\
  run [Put 1 10; Put 5 20] (initmap 4) =
    Some ([NOT_FOUND; NOT_FOUND], scenario_half) /\
  NoDup (keys (entries scenario_half)).
Proof.
  assert (0 < 4) as Hc by lia.
  assert (run [Put 1 10; Put 5 20] (initmap 4) =
    Some ([NOT_FOUND; NOT_FOUND], scenario_half))
    as Hrun by (vm_compute; reflexivity).
  split; [exact Hc|]. split; [exact Hrun|].
  exact (proj1 (proj2 (one_entry_per_key 4 _ Hc) _ _ Hrun)).
Defined.

(** C6 (as amended).  In a single thread, on any map a sequence of
    calls leads to from a fresh map, for a key whose bucket index is not
    negative, and as long as the keys of the calls have a bucket and
    [numOps] can be incremented: [put(map, key, v)] returns, the calls
    that follow return, and if none of them puts or deletes [key], the
    [get(map, key)] behind them returns [v]; [del(map, key)] returns,
    the calls that follow return, and if none of them puts [key], the
    [get(map, key)] behind them returns [NOT_FOUND]; and
    [put(map, key, v')] on a key bound to [v] returns [v] and binds the
    key to [v']. *)
Theorem single_thread_correct (m : ts_hashmap_t) (key : Z) :
  reachable m -> 0 <= Z.rem key (map_capacity m) ->
  (forall v ops,
     Forall (leaves_alone key) ops ->
     Forall (fun o => 0 <= Z.rem (op_key o) (map_capacity m)) ops ->
     map_numOps m + Z.of_nat (length ops) + 1 < INT_MAX ->
     exists r m1 rs m2 m3,
       returns (put key v) m r m1 /\ run ops m1 = Some (rs, m2) /\
       returns (get key) m2 v m3) /\
  (forall ops,
     Forall (does_not_put key) ops ->
     Forall (fun o => 0 <= Z.rem (op_key o) (map_capacity m)) ops ->
     map_numOps m + Z.of_nat (length ops) + 1 < INT_MAX ->
     exists r m1 rs m2 m3,
       returns (del key) m r m1 /\ run ops m1 = Some (rs, m2) /\
       returns (get key) m2 NOT_FOUND m3) /\
  (forall v v',
     lookup_key m key = Some v -> map_numOps m < INT_MAX ->
     exists m', returns (put key v') m v m' /\ lookup_key m' key = Some v').
Proof.
  intros Hinv%reachable_inv Hi.
  assert (forall (o : op) ops,
    op_key o = key ->
    Forall (fun o => 0 <= Z.rem (op_key o) (map_capacity m)) ops ->
    map_numOps m + Z.of_nat (length ops) + 1 < INT_MAX ->
    exists r m1 t rs m2 m3,
      exec o m = Some (r, m1, t) /\ run ops m1 = Some (rs, m2) /\
      map_inv m1 /\
      returns (get key) m2 (default NOT_FOUND (lookup_key m2 key)) m3)
    as Hrest.
  { intros o ops Ho Hk Hn.
    destruct (exec_defined o m Hinv) as (r & m1 & t & Hrun);
      [lia|by rewrite Ho|].
    pose proof (exec_inv _ _ _ _ _ Hinv Hrun) as Hinv1.
    destruct (exec_counters _ _ _ _ _ Hrun) as (Hcap & Hops & _).
    destruct (run_defined_from ops m1 Hinv1) as (rs & m2 & Hops2).
    { eapply Forall_impl; [done|]. intros o'. unfold index_of.
      by rewrite Hcap. }
    { lia. }
    pose proof (run_inv _ _ _ _ Hinv1 Hops2) as Hinv2.
    destruct (run_counters_all _ _ _ _ Hops2) as (Hn2 & _ & Hcap2 & _).
    destruct (get_defined_value m2 key Hinv2) as [m3 Hget].
    { lia. }
    { unfold index_of. by rewrite Hcap2, Hcap. }
    by exists r, m1, t, rs, m2, m3. }
  split; [|split].
  - intros v ops Hops Hk Hn.
    destruct (Hrest (Put key v) ops eq_refl Hk Hn)
      as (r & m1 & t & rs & m2 & m3 & Hput & Hrun & Hinv1 & Hget).
    rewrite (run_lookup_alone _ _ _ _ _ Hinv1 Hops Hrun) in Hget.
    rewrite (exec_lookup (Put key v) _ _ _ _ key Hinv Hput) in Hget.
    cbn in Hget. rewrite decide_True in Hget by done.
    exists r, m1, rs, m2, m3. split; [by exists t|done].
  - intros ops Hops Hk Hn.
    destruct (Hrest (Del key) ops eq_refl Hk Hn)
      as (r & m1 & t & rs & m2 & m3 & Hdel & Hrun & Hinv1 & Hget).
    rewrite (run_lookup_unbound _ _ _ _ _ Hinv1 Hops Hrun) in Hget.
    + exists r, m1, rs, m2, m3. split; [by exists t|done].
    + rewrite (exec_lookup (Del key) _ _ _ _ key Hinv Hdel).
      cbn. by rewrite decide_True.
  - intros v v' Hl Hn.
    destruct (exec_defined (Put key v') m Hinv Hn Hi) as (r & m' & t & Hput).
    pose proof (exec_result _ _ _ _ _ Hinv Hput) as Hr.
    pose proof (exec_lookup _ _ _ _ _ key Hinv Hput) as Hl'.
    cbn in Hr, Hl', Hput. rewrite Hl in Hr. cbn in Hr. subst r.
    rewrite decide_True in Hl' by done.
    exists m'. split; [by exists t|done].
Qed.

Lemma single_thread_correct_witness :
  reachable scenario_half /\
  0 <= Z.rem 5 (map_capacity scenario_half) /\
  (exists r m1 rs m2 m3,
     returns (put 5 77) scenario_half r m1 /\
     run [Get 1; Put 1 11; Del 1] m1 = Some (rs, m2) /\
     returns (get 5) m2 77 m3) /\
  (exists r m1 rs m2 m3,
     returns (del 5) scenario_half r m1 /\
     run [Get 5; Put 1 11] m1 = Some (rs, m2) /\
     returns (get 5) m2 NOT_FOUND m3) /\
  (exists m',
     returns (put 5 77) scenario_half 20 m' /\ lookup_key m' 5 = Some 77).
Proof.
  assert (reachable scenario_half) as Hr
    by (exists 4, [Put 1 10; Put 5 20], [NOT_FOUND; NOT_FOUND];
        split; [lia|vm_compute; reflexivity]).
  assert (0 <= Z.rem 5 (map_capacity scenario_half)) as Hi
    by (vm_compute; discriminate).
  assert (Forall (leaves_alone 5) [Get 1; Put 1 11; Del 1]) as Ha
    by (repeat constructor; discriminate).
  assert (Forall (does_not_put 5) [Get 5; Put 1 11]) as Hd
    by (repeat constructor; discriminate).
  assert (Forall (fun o => 0 <= Z.rem (op_key o) (map_capacity scenario_half))
            [Get 1; Put 1 11; Del 1]) as Hk1
    by (repeat constructor; vm_compute; discriminate).
  assert (Forall (fun o => 0 <= Z.rem (op_key o) (map_capacity scenario_half))
            [Get 5; Put 1 11]) as Hk2
    by (repeat constructor; vm_compute; discriminate).
  assert (map_numOps scenario_half + Z.of_nat 3 + 1 < INT_MAX) as Hn1
    by reflexivity.
  assert (map_numOps scenario_half + Z.of_nat 2 + 1 < INT_MAX) as Hn2
    by reflexivity.
  assert (lookup_key scenario_half 5 = Some 20) as Hl by reflexivity.
  assert (map_numOps scenario_half < INT_MAX) as Hn by reflexivity.
  split; [exact Hr|]. split; [exact Hi|].
  split; [|split].
  - exact (proj1 (single_thread_correct scenario_half 5 Hr Hi)
             77 _ Ha Hk1 Hn1).
  - exact (proj1 (proj2 (single_thread_correct scenario_half 5 Hr Hi))
             _ Hd Hk2 Hn2).
  - exact (proj2 (proj2 (single_thread_correct scenario_half 5 Hr Hi))
             20 77 Hl Hn).
Defined.

(** C6 as stated fails for a key whose bucket index is negative: with
    capacity 4 and key -1 neither [put] nor [del] returns, and the [get]
    behind them returns nothing: the calls index [lock] and [table] at
    -1. *)
Lemma single_thread_negative_key_undefined :
  reachable (initmap 4) /\
  put (-1) 7 (initmap 4) = None /\
  del (-1) (initmap 4) = None /\
  run [Put (-1) 7; Get (-1)] (initmap 4) = None /\
  ~ (exists r m1 m2, returns (put (-1) 7) (initmap 4) r m1 /\
                     returns (get (-1)) m1 7 m2).
Proof.
  split; [by exists 4, [], []|].
  split; [reflexivity|]. split; [reflexivity|]. split; [reflexivity|].
  intros (r & m1 & m2 & [t Hput] & _). vm_compute in Hput. discriminate.
Qed.

(** ** Locking *)

(** C8.  Every call to [get], [put] or [del] that returns has locked
    exactly one mutex, the one of the key's bucket, held no other mutex
    with it, and unlocked it before returning, whichever exit it took:
    its mutex operations are [Acquire index; Release index] and the
    mutexes are left as they were found.  (The call does return on a
    well-formed map whose counters are away from the bounds of [int],
    for a key whose bucket index is not negative.)  Threads whose calls
    lock this way never deadlock: as long as some thread has a call to
    finish, some thread can take a step. *)
Theorem one_bucket_lock_per_call (o : op) (m : ts_hashmap_t) :
  (callable m (op_key o) -> INT_MIN < map_size m < INT_MAX ->
   exists r m' t, exec o m = Some (r, m', t)) /\
  (forall r m' t, exec o m = Some (r, m', t) ->
     let index := index_of m (op_key o) in
     slot (map_lock m) index = Some false /\
     t = [Acquire index; Release index] /\
     t = op_events (map_capacity m) o /\
     acquired t = [index] /\
     max_held [] t = 1%nat /\
     held_after [] t = [] /\
     map_lock m' = map_lock m) /\
  deadlock_free (map_capacity m).
Proof.
  split; [apply exec_callable|]. split; [|apply deadlock_freedom].
  intros r m' t Hrun index.
  destruct (exec_enter _ _ _ _ _ Hrun) as (c & He & ->).
  destruct (enter_lock_table _ _ _ _ He) as [Hl _].
  destruct (critical_discipline index) as (Ha & Hm & Hh).
  repeat split; try done.
  by apply exec_counters in Hrun as (_ & _ & -> & _).
Qed.

Lemma one_bucket_lock_per_call_witness :
  exec (Del 5) scenario_half =
    Some (20, Hashmap [[]; [Entry 1 10]; []; []]
                [false; false; false; false] 4 1 3, critical 1) /\
  acquired (critical 1) = [1].
Proof.
  assert (exec (Del 5) scenario_half =
    Some (20, Hashmap [[]; [Entry 1 10]; []; []]
                [false; false; false; false] 4 1 3, critical 1)) as Hrun
    by reflexivity.
  split; [exact Hrun|].
  exact (proj1 (proj2 (proj2 (proj2
    (proj1 (proj2 (one_bucket_lock_per_call (Del 5) scenario_half))
       _ _ _ Hrun))))).
Defined.

(** * Beyond the claims *)

(** ** Calls as functions of the bucket's chain *)

Lemma upsert_found c key value before e rest :
  first_match c key before e rest ->
  upsert c key value = before ++ Entry key value :: rest.
Proof.
  revert before. induction c as [|x c IH]; intros before H.
  - destruct H as (H & _). by destruct before.
  - apply first_match_cons_inv in H. cbn [upsert].
    destruct H as [(Hx & -> & -> & ->)|(? & b' & -> & H)]; case_decide; try done.
    + by rewrite Hx.
    + by rewrite (IH _ H).
Qed.

Lemma upsert_absent c key value :
  key ∉ keys c -> upsert c key value = c ++ [Entry key value].
Proof.
  induction c as [|x c IH]; [done|].
  rewrite keys_cons, not_elem_of_cons. intros [Hx Hc]. cbn.
  rewrite decide_False by congruence. by rewrite IH.
Qed.

Lemma remove_found c key before e rest :
  first_match c key before e rest -> remove c key = before ++ rest.
Proof.
  revert before. induction c as [|x c IH]; intros before H.
  - destruct H as (H & _). by destruct before.
  - apply first_match_cons_inv in H. cbn [remove].
    destruct H as [(Hx & -> & -> & ->)|(? & b' & -> & H)]; case_decide; try done.
    by rewrite (IH _ H).
Qed.

Lemma remove_absent c key : key ∉ keys c -> remove c key = c.
Proof.
  induction c as [|x c IH]; [done|].
  rewrite keys_cons, not_elem_of_cons. intros [Hx Hc]. cbn.
  rewrite decide_False by congruence. by rewrite IH.
Qed.

Lemma put_case_upsert o c c' key value s s' r :
  put_case o c c' key value s s' r ->
  c' = upsert c key value /\
  (if decide (key ∈ keys c) then s' = s else s' = s + 1).
Proof.
  intros Hcase. destruct o; cbn in Hcase.
  - destruct Hcase as (-> & -> & -> & _). split; [done|].
    rewrite decide_False; [done|]. apply not_elem_of_nil.
  - destruct Hcase as (before & e & rest & Hm & -> & -> & _).
    split; [by rewrite (upsert_found _ _ _ _ _ _ Hm)|].
    rewrite decide_True; [done|]. by eapply first_match_elem.
  - destruct Hcase as (_ & Ha & -> & -> & _).
    split; [by rewrite upsert_absent|]. by rewrite decide_False.
Qed.

Lemma del_case_remove o c c' key s s' r :
  del_case o c c' key s s' r ->
  c' = remove c key /\
  (if decide (key ∈ keys c) then s' = s - 1 else s' = s).
Proof.
  intros Hcase. destruct o; cbn in Hcase.
  - destruct Hcase as (Ha & -> & -> & _).
    split; [by rewrite remove_absent|]. by rewrite decide_False.
  - destruct Hcase as (e & next & -> & <- & -> & -> & _). split.
    + cbn. by rewrite decide_True.
    + rewrite decide_True; [done|]. rewrite keys_cons. apply list_elem_of_here.
  - destruct Hcase as (before & p & e & rest & Hm & -> & -> & _). split.
    + rewrite (remove_found _ _ _ _ _ Hm). by rewrite <- app_assoc.
    + rewrite decide_True; [done|]. by eapply first_match_elem.
Qed.

(** The execution equation of a call: it finds its bucket, leaves
    [chain_after] in it, moves [size] as [size_after] says and returns
    the binding of its key. *)
Lemma exec_eq o m :
  exec o m =
  match enter m (op_key o) with
  | None => None
  | Some (index, c) =>
      s' ← size_after o c (map_size m);
      Some (default NOT_FOUND (get_loop c (op_key o)),
            after m index (chain_after o c) s', critical index)
  end.
Proof.
  destruct o as [key|key value|key]; cbn [exec op_key size_after chain_after].
  - rewrite get_eq. destruct (enter m key) as [[index c]|] eqn:He; [|done].
    pose proof (enter_lock_table _ _ _ _ He) as [_ Ht].
    cbn. by rewrite after_same.
  - rewrite put_eq. destruct (enter m key) as [[index c]|] eqn:He; [|done].
    destruct (put_branches_cases m index c key value)
      as (c' & r & s' & o & Hcase & ->).
    pose proof (put_case_get_loop _ _ _ _ _ _ _ _ Hcase) as (-> & _).
    apply put_case_upsert in Hcase as (-> & Hs).
    destruct (decide (key ∈ keys c)).
    + by rewrite decide_True.
    + by rewrite decide_False by lia.
  - rewrite del_eq. destruct (enter m key) as [[index c]|] eqn:He; [|done].
    pose proof (enter_lock_table _ _ _ _ He) as [_ Ht].
    destruct (del_branches_cases m index c key Ht)
      as (c' & r & s' & o & Hcase & ->).
    assert (r = default NOT_FOUND (get_loop c key)) as ->.
    { destruct o; cbn in Hcase.
      - destruct Hcase as (Ha & _ & _ & ->). by rewrite get_loop_absent.
      - destruct Hcase as (e & next & -> & <- & _ & _ & ->).
        by rewrite get_loop_cons_eq.
      - destruct Hcase as (before & p & e & rest & Hm & _ & _ & ->).
        by rewrite (get_loop_found _ _ _ _ _ Hm). }
    apply del_case_remove in Hcase as (-> & Hs).
    destruct (decide (key ∈ keys c)).
    + by rewrite decide_False by lia.
    + by rewrite decide_True.
Qed.







(** What [exec_eq] says of a call that returns. *)
Lemma exec_Some o m r m' t :
  exec o m = Some (r, m', t) ->
  exists c s',
    enter m (op_key o) = Some (index_of m (op_key o), c) /\
    size_after o c (map_size m) = Some s' /\
    r = default NOT_FOUND (get_loop c (op_key o)) /\
    m' = after m (index_of m (op_key o)) (chain_after o c) s' /\
    t = critical (index_of m (op_key o)).
Proof.
  rewrite exec_eq.
  destruct (enter m (op_key o)) as [[index c]|] eqn:He; [|done].
  pose proof (enter_index _ _ _ _ He) as (-> & _ & _).
  destruct (size_after o c (map_size m)) as [s'|] eqn:Hs; [|done].
  cbn. intros [= <- <- <-]. by exists c, s'.
Qed.

Lemma size_after_Some o c s s' :
  size_after o c s = Some s' ->
  -1 <= s' - s <= 1 /\
  forall s0, INT_MIN < s0 < INT_MAX ->
    size_after o c s0 = Some (s0 + (s' - s)).
Proof.
  destruct o as [key|key value|key]; cbn.
  - intros [= <-]. split; [lia|]. intros s0 _. f_equal. lia.
  - case_decide.
    + intros [= <-]. split; [lia|]. intros s0 _. f_equal. lia.
    + unfold int_incr. case_decide; [|done]. intros [= <-].
      split; [lia|]. intros s0 Hs0. rewrite decide_True by lia. f_equal. lia.
  - case_decide.
    + unfold int_decr. case_decide; [|done]. intros [= <-].
      split; [lia|]. intros s0 Hs0. rewrite decide_True by lia. f_equal. lia.
    + intros [= <-]. split; [lia|]. intros s0 _. f_equal. lia.
Qed.

Lemma enter_after m index c s key :
  0 <= index ->
  enter (after m index c s) key =
  match enter (set_numOps m (map_numOps m + 1)) key with
  | None => None
  | Some (i, c0) => Some (i, if decide (i = index) then c else c0)
  end.
Proof.
  intros Hi. unfold enter. cbn [after set_numOps map_numOps map_capacity map_lock map_table].
  destruct (int_incr (map_numOps m + 1)); [|done].
  destruct (int_mod key (map_capacity m)) as [i|]; [|done].
  destruct (slot (map_lock m) i) as [[]|]; [done| |done].
  unfold slot. case_decide as Hi0; [|done].
  destruct (decide (i = index)) as [->|Hne].
  - destruct (map_table m !! Z.to_nat index) as [c0|] eqn:Ht.
    + rewrite list_lookup_insert_eq by (by eapply lookup_lt_Some).
      by rewrite decide_True.
    + rewrite list_insert_ge by (by apply lookup_ge_None). by rewrite Ht.
  - rewrite list_lookup_insert_ne by lia.
    destruct (map_table m !! Z.to_nat i); [|done]. by rewrite decide_False.
Qed.


Lemma index_of_after m index c s key :
  index_of (after m index c s) key = index_of m key.
Proof. reflexivity. Qed.


(** ** Bindings and keys present *)






(** ** Calls on different buckets *)

Lemma slot_insert_ne {A} (l : list A) i j x :
  0 <= i -> 0 <= j -> i ≠ j ->
  slot (<[Z.to_nat i := x]> l) j = slot l j.
Proof.
  intros Hi Hj Hne. unfold slot. case_decide; [|done].
  apply list_lookup_insert_ne. lia.
Qed.

Lemma exec_swap o1 o2 m r1 m1 t1 r2 m2 t2 :
  map_inv m ->
  index_of m (op_key o1) ≠ index_of m (op_key o2) ->
  exec o1 m = Some (r1, m1, t1) -> exec o2 m1 = Some (r2, m2, t2) ->
  exists m1',
    exec o2 m = Some (r2, m1', t2) /\ exec o1 m1' = Some (r1, m2, t1).
Proof.
  intros Hinv Hne H1 H2.
  pose proof (map_inv_size_bounds _ Hinv) as Hs.
  apply exec_Some in H1 as (c1 & s1 & He1 & Hs1 & -> & -> & ->).
  apply exec_Some in H2 as (c2 & s2 & He2 & Hs2 & -> & -> & ->).
  rewrite !index_of_after in *.
  set (i1 := index_of m (op_key o1)) in *.
  set (i2 := index_of m (op_key o2)) in *.
  pose proof He1 as (Hn1 & Hi1 & Hl1 & Ht1)%enter_Some.
  pose proof He2 as (Hn2 & Hi2 & Hl2 & Ht2)%enter_Some.
  pose proof (enter_index _ _ _ _ He1) as (_ & _ & Hp1).
  pose proof (enter_index _ _ _ _ He2) as (_ & _ & Hp2).
  cbn [after map_numOps map_capacity map_lock map_table] in Hn2, Hi2, Hl2, Ht2.
  rewrite slot_insert_ne in Ht2 by done.
  destruct (size_after_Some _ _ _ _ Hs1) as [Hd1 Hm1].
  cbn [after map_size] in Hs2.
  destruct (size_after_Some _ _ _ _ Hs2) as [Hd2 Hm2].
  assert (INT_MIN < map_size m < INT_MAX) as Hb
    by (unfold INT_MIN, INT_MAX in *; lia).
  assert (INT_MIN < map_size m + (s2 - s1) < INT_MAX) as Hb'
    by (unfold INT_MIN, INT_MAX in *; lia).
  pose proof (Hm2 _ Hb) as Hs2'. pose proof (Hm1 _ Hb') as Hs1'.
  assert (enter m (op_key o2) = Some (i2, c2)) as He2'.
  { apply enter_Some. repeat split; try done; lia. }
  exists (after m i2 (chain_after o2 c2) (map_size m + (s2 - s1))). split.
  - rewrite exec_eq, He2', Hs2'. done.
  - rewrite exec_eq.
    assert (enter (after m i2 (chain_after o2 c2) (map_size m + (s2 - s1)))
              (op_key o1) = Some (i1, c1)) as ->.
    { apply enter_Some. cbn [after map_numOps map_capacity map_lock map_table].
      repeat split; try done. by rewrite slot_insert_ne. }
    cbn [after map_size]. rewrite Hs1'. cbn.
    replace (map_size m + (s2 - s1) + (s1 - map_size m)) with s2 by lia.
    unfold after; cbn. by rewrite list_insert_insert_ne by lia.
Qed.

(** ** Fresh maps *)

Lemma join_insert_replicate {A} (n i : nat) (c : list A) :
  (i < n)%nat -> mjoin (<[i := c]> (replicate n [])) = c.
Proof.
  revert i. induction n as [|n IH]; intros i Hi; [lia|].
  destruct i as [|i]; cbn.
  - clear IH Hi. rewrite <- (app_nil_r c) at 2. f_equal.
    induction n as [|n IH]; [done|]. exact IH.
  - apply IH. lia.
Qed.

Lemma enter_initmap capacity key :
  0 < capacity -> 0 <= Z.rem key capacity ->
  enter (initmap capacity) key = Some (Z.rem key capacity, []).
Proof.
  intros Hc Hi.
  destruct (enter_callable (initmap capacity) key) as (c & Hb & He).
  { split; [by apply initmap_well_formed|cbn; unfold INT_MAX; lia|done]. }
  apply slot_Some in Hb as [_ Hb]. cbn in Hb.
  apply lookup_replicate in Hb as [-> _]. exact He.
Qed.

Lemma enter_initmap_nonpositive capacity key :
  capacity <= 0 -> enter (initmap capacity) key = None.
Proof.
  intros Hc. destruct (enter _ _) as [[index c]|] eqn:He; [|done].
  apply enter_lock_table in He as [_ Ht]. apply slot_Some in Ht as [_ Ht].
  cbn in Ht. replace (Z.to_nat capacity) with 0%nat in Ht by lia. done.
Qed.

(** ** Threads: mutual exclusion and termination *)

Lemma between_calls_not_release index rest :
  ~ between_calls (Release index :: rest).
Proof. by intros (i & [=] & _)%between_calls_cons. Qed.

Lemma critical_section_holder s tid index :
  sys_inv s ->
  in_critical_section s tid index <-> holder s !! index = Some tid.
Proof.
  intros [Ht Hh]. split.
  - intros [rest Hp].
    destruct (Ht _ _ Hp) as [Hb|(i & r & [= -> ->] & _ & Hheld)]; [|done].
    by apply between_calls_not_release in Hb.
  - apply Hh.
Qed.

Lemma step_work_left s s' : step s s' -> work_left s = S (work_left s').
Proof.
  intros [p h tid index rest Hp _|p h tid index rest Hp _];
    unfold work_left; cbn [pending];
    pose proof (length_join_insert p tid _ rest Hp) as Hl;
    cbn [length] in Hl; lia.
Qed.

Lemma nsteps_work_left n s s' :
  nsteps step n s s' -> (n + work_left s')%nat = work_left s.
Proof.
  induction 1 as [|n s1 s2 s3 Hstep _ IH]; [done|].
  apply step_work_left in Hstep. lia.
Qed.

Lemma join_fmap_cons {A B} (f : A -> list B) (x : A) (l : list A) :
  mjoin (f <$> x :: l) = f x ++ mjoin (f <$> l).
Proof. done. Qed.

Lemma length_thread_events capacity calls :
  length (thread_events capacity calls) = (2 * length calls)%nat.
Proof.
  unfold thread_events. induction calls as [|o calls IH]; [done|].
  rewrite join_fmap_cons, length_app, IH. cbn. lia.
Qed.

Lemma work_left_start capacity programs :
  work_left (start capacity programs) = (2 * length (mjoin programs))%nat.
Proof.
  unfold work_left, start. cbn [pending].
  induction programs as [|calls programs IH]; [done|].
  rewrite join_fmap_cons, length_app, length_thread_events, IH.
  change (mjoin (calls :: programs)) with (calls ++ mjoin programs).
  rewrite length_app. lia.
Qed.

Lemma finished_holder s : sys_inv s -> finished s -> holder s = ∅.
Proof.
  intros [_ Hh] Hf. apply map_empty. intros index.
  destruct (holder s !! index) as [tid|] eqn:Hi; [|done].
  destruct (Hh _ _ Hi) as [rest Hp]. by apply Hf in Hp.
Qed.

Lemma run_to_end s :
  sys_inv s -> exists s', rtc step s s' /\ finished s'.
Proof.
  remember (work_left s) as n eqn:Hn. revert s Hn.
  induction n as [|n IH]; intros s Hn Hinv.
  - destruct (progress _ Hinv) as [Hf|[s' Hstep]]; [by exists s|].
    apply step_work_left in Hstep. lia.
  - destruct (progress _ Hinv) as [Hf|[s1 Hstep]]; [by exists s|].
    pose proof (step_work_left _ _ Hstep) as Hw.
    destruct (IH s1) as (s' & Hsteps & Hf); [lia|by eapply step_inv|].
    exists s'. split; [by eapply rtc_l|done].
Qed.

(** The log of a thread is made of one lock and one unlock of the
    key's bucket per call. *)
Lemma thread_log_events capacity calls t :
  thread_log capacity calls t -> t = thread_events capacity calls.
Proof.
  induction 1 as [|o calls m r m' t ts Hcap Hrun _ IH]; [done|].
  destruct (exec_enter _ _ _ _ _ Hrun) as (c & _ & ->).
  unfold thread_events. rewrite join_fmap_cons. unfold op_events at 1.
  unfold index_of. rewrite Hcap. by rewrite IH.
Qed.

Lemma started_start capacity programs s :
  started capacity programs s -> s = start capacity programs.
Proof.
  destruct s as [p h]. intros [Hp Hh]. cbn in *. subst h.
  unfold start. f_equal.
  induction Hp as [|calls t programs p Ht _ IH]; [done|].
  rewrite fmap_cons, <- IH. f_equal. by apply thread_log_events.
Qed.

(** Threads whose calls all have a bucket can start on a map of
    positive capacity. *)
Lemma thread_log_admissible capacity calls :
  0 < capacity ->
  Forall (fun o => 0 <= Z.rem (op_key o) capacity) calls ->
  thread_log capacity calls (thread_events capacity calls).
Proof.
  intros Hc. induction 1 as [|o calls Ho _ IH]; [constructor|].
  destruct (exec_defined o (initmap capacity)) as (r & m' & t & Hrun);
    [by apply initmap_inv|done|done|].
  destruct (exec_enter _ _ _ _ _ Hrun) as (c & _ & Ht).
  unfold thread_events. rewrite join_fmap_cons.
  change (op_events capacity o)
    with (critical (index_of (initmap capacity) (op_key o))).
  rewrite <- Ht.
  exact (thread_log_cons capacity o calls (initmap capacity) _ _ _ _
           eq_refl Hrun IH).
Qed.

Lemma started_admissible capacity programs :
  0 < capacity ->
  Forall (Forall (fun o => 0 <= Z.rem (op_key o) capacity)) programs ->
  started capacity programs (start capacity programs).
Proof.
  intros Hc Hk. split; [|done]. cbn.
  induction Hk as [|calls programs Hcalls _ IH]; [constructor|].
  rewrite fmap_cons. constructor; [by apply thread_log_admissible|done].
Qed.

(** ** Strings *)

Lemma append_cons a s t : String a s +:+ t = String a (s +:+ t).
Proof. reflexivity. Qed.

Lemma append_assoc s t u : (s +:+ t) +:+ u = s +:+ (t +:+ u).
Proof.
  induction s as [|a s IH]; [done|]. by rewrite !append_cons, IH.
Qed.

Lemma occurrences_append a s t :
  occurrences a (s +:+ t) = (occurrences a s + occurrences a t)%nat.
Proof.
  induction s as [|b s IH]; [done|].
  rewrite append_cons. cbn [occurrences]. rewrite IH. lia.
Qed.

Lemma numeral_occurrences a s :
  numeric a = false -> numeral s -> occurrences a s = 0%nat.
Proof.
  intros Ha. induction s as [|b s IH]; [done|].
  intros [Hb Hs]. cbn [occurrences]. rewrite (IH Hs).
  case_decide; [congruence|done].
Qed.

Lemma numeric_pretty_N_char x : numeric (pretty_N_char x) = true.
Proof. unfold pretty_N_char. by repeat case_match. Qed.

Lemma numeral_pretty_N_go x s : numeral s -> numeral (pretty_N_go x s).
Proof.
  revert s. induction (N.lt_wf_0 x) as [x _ IH]; intros s Hs.
  destruct (decide (x = 0%N)) as [->|Hx]; [by rewrite pretty_N_go_0|].
  rewrite pretty_N_go_step by lia. apply IH.
  - apply N.div_lt; lia.
  - split; [apply numeric_pretty_N_char|done].
Qed.

Lemma numeral_pretty_N (x : N) : numeral (pretty x).
Proof.
  unfold pretty, pretty_N. case_decide; [by cbn|].
  by apply numeral_pretty_N_go.
Qed.

Lemma numeral_pretty (z : Z) : numeral (pretty z).
Proof.
  destruct z as [|p|p]; [by cbn|apply numeral_pretty_N|].
  change (pretty (Z.neg p)) with ("-" +:+ pretty (N.pos p)).
  rewrite append_cons. split; [done|apply numeral_pretty_N].
Qed.

(** A numeral ends where the first character that is not of a numeral
    stands. *)
Lemma numeral_split s t a b u v :
  numeral s -> numeral t -> numeric a = false -> numeric b = false ->
  s +:+ String a u = t +:+ String b v -> s = t /\ a = b /\ u = v.
Proof.
  intros Hs Ht Ha Hb. revert t Ht.
  induction s as [|x s IH]; intros [|y t] Ht; rewrite ?append_cons; cbn.
  - by intros [= -> ->].
  - destruct Ht as [Hy _]. intros [= -> _]. congruence.
  - destruct Hs as [Hx _]. intros [= -> _]. congruence.
  - destruct Hs as [_ Hs], Ht as [_ Ht]. intros [= -> Heq].
    destruct (IH Hs _ Ht Heq) as (-> & -> & ->). done.
Qed.

Lemma append_nil s : EmptyString +:+ s = s.
Proof. reflexivity. Qed.

(** ** printmap *)

Lemma printmap_loop_cons e next r :
  printmap_loop (e :: next) +:+ r =
  String "(" (pretty (entry_key e) +:+ String ","
    (pretty (entry_value e) +:+ String ")"
      ((match next with [] => EmptyString | _ :: _ => " -> " end) +:+
       (printmap_loop next +:+ r)))).
Proof. cbn [printmap_loop]. by rewrite !append_assoc. Qed.

(** The line of a chain determines the chain. *)
Lemma printmap_loop_inj c1 c2 r1 r2 :
  printmap_loop c1 +:+ String newline r1 =
  printmap_loop c2 +:+ String newline r2 ->
  c1 = c2 /\ r1 = r2.
Proof.
  revert c2. induction c1 as [|e1 n1 IH]; intros [|e2 n2].
  - cbn [printmap_loop]. rewrite !append_nil. by intros [= ->].
  - rewrite printmap_loop_cons. cbn [printmap_loop]. rewrite append_nil.
    intros [=].
  - rewrite printmap_loop_cons. cbn [printmap_loop]. rewrite append_nil.
    intros [=].
  - rewrite !printmap_loop_cons. intros [= H].
    apply numeral_split in H as (Hk & _ & H);
      [|apply numeral_pretty..|done|done].
    apply numeral_split in H as (Hv & _ & H);
      [|apply numeral_pretty..|done|done].
    apply (inj pretty) in Hk. apply (inj pretty) in Hv.
    assert (e1 = e2) as -> by (destruct e1, e2; cbn in *; congruence).
    destruct n1 as [|x1 n1], n2 as [|x2 n2].
    + cbn [printmap_loop] in H. rewrite !append_nil in H.
      by injection H as ->.
    + cbn [printmap_loop] in H. rewrite !append_nil in H.
      rewrite !append_cons in H. discriminate H.
    + cbn [printmap_loop] in H. rewrite !append_nil in H.
      rewrite !append_cons in H. discriminate H.
    + apply (inj (String.app _)) in H.
      destruct (IH _ H) as [-> ->]. done.
Qed.

Lemma occurrences_printmap_loop c :
  occurrences "(" (printmap_loop c) = length c /\
  occurrences newline (printmap_loop c) = 0%nat.
Proof.
  induction c as [|e next [IH1 IH2]]; [done|].
  cbn [printmap_loop length].
  rewrite !occurrences_append, IH1, IH2.
  rewrite !(numeral_occurrences _ (pretty _)) by (done || apply numeral_pretty).
  by destruct next.
Qed.

Lemma printmap_for_Some m k n :
  (k + n <= length (map_table m))%nat ->
  exists s,
    printmap_for m (Z.of_nat k) n = Some s /\
    occurrences newline s = n /\
    occurrences "(" s = length (mjoin (take n (drop k (map_table m)))).
Proof.
  revert k. induction n as [|n IH]; intros k Hk.
  - exists EmptyString. by rewrite take_0.
  - destruct (lookup_lt_is_Some_2 (map_table m) k) as [c Hc]; [lia|].
    destruct (IH (S k)) as (rest & Hrest & Hn & Hp); [lia|].
    cbn [printmap_for].
    assert (slot (map_table m) (Z.of_nat k) = Some c) as ->.
    { apply slot_Some. split; [lia|]. by rewrite Nat2Z.id. }
    replace (Z.of_nat k + 1) with (Z.of_nat (S k)) by lia.
    rewrite Hrest. cbn [mbind option_bind].
    eexists. split; [done|].
    destruct (occurrences_printmap_loop c) as [Hc1 Hc2].
    assert (length (mjoin (take (S n) (drop k (map_table m)))) =
            (length c + length (mjoin (take n (drop (S k) (map_table m)))))%nat)
      as -> by (rewrite (drop_S _ _ _ Hc); cbn; by rewrite length_app).
    rewrite !occurrences_append, Hc1, Hc2.
    rewrite !(numeral_occurrences _ (pretty _)) by (done || apply numeral_pretty).
    cbn [occurrences]. rewrite Hn, Hp. count_characters. split; lia.
Qed.

Lemma printmap_for_inj m1 m2 i n1 n2 s :
  printmap_for m1 i n1 = Some s -> printmap_for m2 i n2 = Some s ->
  n1 = n2 /\
  forall j, (j < n1)%nat ->
    slot (map_table m1) (i + Z.of_nat j) = slot (map_table m2) (i + Z.of_nat j).
Proof.
  revert n2 i s. induction n1 as [|n1 IH]; intros [|n2] i s;
    cbn [printmap_for].
  - intros _ _. split; [done|lia].
  - intros [= <-].
    destruct (slot (map_table m2) i) as [c2|]; [|done].
    destruct (printmap_for m2 (i + 1) n2) as [rest2|]; [|done].
    cbn. rewrite append_cons. intros [=].
  - intros H [= <-]. revert H.
    destruct (slot (map_table m1) i) as [c1|]; [|done].
    destruct (printmap_for m1 (i + 1) n1) as [rest1|]; [|done].
    cbn. rewrite append_cons. intros [=].
  - destruct (slot (map_table m1) i) as [c1|] eqn:H1; [|done].
    destruct (printmap_for m1 (i + 1) n1) as [rest1|] eqn:Hr1; [|done].
    destruct (slot (map_table m2) i) as [c2|] eqn:H2; [|done].
    destruct (printmap_for m2 (i + 1) n2) as [rest2|] eqn:Hr2; [|done].
    cbn. intros [= <-] [= H].
    do 3 apply (inj (String.app _)) in H.
    apply printmap_loop_inj in H as [-> ->].
    destruct (IH _ _ _ Hr1 Hr2) as [-> Hslots]. split; [done|].
    intros [|j] Hj.
    + rewrite Z.add_0_r. congruence.
    + replace (i + Z.of_nat (S j)) with (i + 1 + Z.of_nat j) by lia.
      apply Hslots. lia.
Qed.

(** ** freeMap *)

Lemma freeMap_loop_eq c size :
  INT_MIN <= size - Z.of_nat (length c) ->
  freeMap_loop c size = Some (size - Z.of_nat (length c), FreeEntry <$> c).
Proof.
  revert size. induction c as [|e next IH]; intros size Hs.
  - cbn. do 2 f_equal. lia.
  - cbn [length] in Hs. cbn [freeMap_loop].
    rewrite int_decr_Some by lia. cbn [mbind option_bind].
    rewrite IH by lia. cbn. do 2 f_equal. lia.
Qed.

Lemma freeMap_for_eq m k cs size :
  (forall j c, cs !! j = Some c -> map_table m !! (k + j)%nat = Some c) ->
  (forall j, (j < length cs)%nat -> map_lock m !! (k + j)%nat = Some false) ->
  INT_MIN <= size - Z.of_nat (length (mjoin cs)) ->
  freeMap_for m (Z.of_nat k) (length cs) size =
  Some (size - Z.of_nat (length (mjoin cs)), bucket_releases k cs).
Proof.
  revert k size. induction cs as [|c cs IH]; intros k size Ht Hl Hs.
  - cbn. do 2 f_equal. lia.
  - change (mjoin (c :: cs)) with (c ++ mjoin cs) in *.
    rewrite length_app in *.
    cbn [length freeMap_for bucket_releases].
    assert (slot (map_table m) (Z.of_nat k) = Some c) as ->.
    { apply slot_Some. split; [lia|]. rewrite Nat2Z.id.
      rewrite <- (Nat.add_0_r k). by apply Ht. }
    cbn [mbind option_bind]. rewrite freeMap_loop_eq by lia.
    cbn [mbind option_bind]. unfold pthread_mutex_destroy.
    assert (slot (map_lock m) (Z.of_nat k) = Some false) as ->.
    { apply slot_Some. split; [lia|]. rewrite Nat2Z.id.
      rewrite <- (Nat.add_0_r k). apply Hl. cbn. lia. }
    cbn [mbind option_bind].
    replace (Z.of_nat k + 1) with (Z.of_nat (S k)) by lia.
    rewrite IH.
    + cbn. do 2 f_equal. lia.
    + intros j c' Hj. replace (S k + j)%nat with (k + S j)%nat by lia.
      by apply Ht.
    + intros j Hj. replace (S k + j)%nat with (k + S j)%nat by lia.
      apply Hl. cbn. lia.
    + lia.
Qed.

Lemma freed_entries_bucket_releases k cs :
  freed_entries (bucket_releases k cs) = mjoin cs.
Proof.
  revert k. induction cs as [|c cs IH]; intros k; [done|].
  cbn [bucket_releases]. unfold freed_entries in *.
  rewrite omap_app. cbn [omap list_omap]. rewrite IH.
  change (mjoin (c :: cs)) with (c ++ mjoin cs). f_equal.
  clear. induction c as [|e c IH]; [done|]. cbn. by rewrite IH.
Qed.

Lemma destroyed_mutexes_bucket_releases k cs :
  destroyed_mutexes (bucket_releases k cs) = Z.of_nat <$> seq k (length cs).
Proof.
  revert k. induction cs as [|c cs IH]; intros k; [done|].
  cbn [bucket_releases]. unfold destroyed_mutexes in *.
  rewrite omap_app. cbn [omap list_omap]. rewrite IH.
  assert (omap (fun r => match r with DestroyMutex i => Some i | _ => None end)
            (FreeEntry <$> c) = []) as ->; [|done].
  clear. induction c as [|e c IH]; [done|]. cbn. by rewrite IH.
Qed.

Lemma length_bucket_releases k cs :
  length (bucket_releases k cs) = (length (mjoin cs) + length cs)%nat.
Proof.
  revert k. induction cs as [|c cs IH]; intros k; [done|].
  cbn [bucket_releases]. change (mjoin (c :: cs)) with (c ++ mjoin cs).
  rewrite !length_app, length_fmap. cbn [length]. rewrite IH. lia.
Qed.

(** * Properties beyond the claims *)

(** ** How calls on one key compose *)









(** ** When a call is defined *)

(** X4.  On a map reached from a fresh one, a call to [get], [put] or
    [del] is defined exactly when [numOps] is below [INT_MAX] and the
    bucket index [key % capacity] is not negative, that is when the key
    is not negative or is a multiple of the capacity: nothing else (the
    value, the state of the chains, [size]) can make it fail. *)
Theorem call_defined_iff (m : ts_hashmap_t) (o : op) :
  reachable m ->
  (is_Some (exec o m) <->
   map_numOps m < INT_MAX /\ 0 <= Z.rem (op_key o) (map_capacity m)) /\
  (0 <= Z.rem (op_key o) (map_capacity m) <->
   0 <= op_key o \/ Z.rem (op_key o) (map_capacity m) = 0).
Proof.
  intros Hinv%reachable_inv. split; [split|].
  - intros [[[r m'] t] Hrun].
    destruct (exec_enter _ _ _ _ _ Hrun) as (c & He & _).
    pose proof (enter_index _ _ _ _ He) as (_ & _ & Hi).
    apply enter_Some in He as (Hn & _). done.
  - intros [Hn Hi].
    destruct (exec_defined o m Hinv Hn Hi) as (r & m' & t & ->). by eexists.
  - destruct (inv_wf _ Hinv) as [[Hc _ _] _].
    destruct (decide (0 <= op_key o)) as [Hk|Hk].
    + pose proof (Z.rem_nonneg (op_key o) (map_capacity m)). lia.
    + pose proof (Z.rem_nonpos (op_key o) (map_capacity m)). lia.
Qed.

Lemma call_defined_iff_witness :
  reachable scenario_half /\
  (is_Some (exec (Put (-3) 1) scenario_half) <->
   map_numOps scenario_half < INT_MAX /\ 0 <= Z.rem (-3) 4).
Proof.
  assert (reachable scenario_half) as Hr
    by (exists 4, [Put 1 10; Put 5 20], [NOT_FOUND; NOT_FOUND];
        split; [lia|vm_compute; reflexivity]).
  split; [exact Hr|].
  exact (proj1 (call_defined_iff scenario_half (Put (-3) 1) Hr)).
Defined.

(** ** Whole runs *)

(** X5.  [numOps] counts the calls: after a run of calls on a fresh map
    it is the number of calls made, each call having returned one
    value; the capacity and the number of buckets are those [initmap]
    set, every mutex is free again, and [size] lies between zero and the
    number of calls. *)
Theorem numOps_counts_calls (capacity : Z) (ops : list op) (rs : list Z)
    (m : ts_hashmap_t) :
  0 < capacity ->
  run ops (initmap capacity) = Some (rs, m) ->
  map_numOps m = Z.of_nat (length ops) /\
  length rs = length ops /\
  map_capacity m = capacity /\
  length (map_table m) = Z.to_nat capacity /\
  map_lock m = replicate (Z.to_nat capacity) false /\
  0 <= map_size m <= Z.of_nat (length ops).
Proof.
  intros Hc Hrun.
  destruct (run_counters_all _ _ _ _ Hrun) as (Hn & Hrs & Hcap & Hl & Ht).
  assert (map_inv m) as Hinv by (apply reachable_inv; by exists capacity, ops, rs).
  pose proof (map_inv_size_bounds _ Hinv) as Hs.
  cbn in *. rewrite length_replicate in Ht. repeat split; try done; lia.
Qed.

Lemma numOps_counts_calls_witness :
  0 < 4 /\
  run scenario (initmap 4) =
    Some ([NOT_FOUND; NOT_FOUND; 10; 20; 10; 20; NOT_FOUND], scenario_end) /\
  map_numOps scenario_end = 7.
Proof.
  assert (0 < 4) as Hc by lia.
  assert (run scenario (initmap 4) =
    Some ([NOT_FOUND; NOT_FOUND; 10; 20; 10; 20; NOT_FOUND], scenario_end))
    as Hrun by (vm_compute; reflexivity).
  split; [exact Hc|]. split; [exact Hrun|].
  exact (proj1 (numOps_counts_calls 4 scenario _ scenario_end Hc Hrun)).
Defined.



(** X7.  Calls on different buckets do not interfere: on a map reached
    from a fresh one, two calls whose keys are sent to different buckets
    can be made in either order; each returns the same value and the map
    at the end is the same. *)
Theorem different_buckets_commute (m : ts_hashmap_t) (o1 o2 : op)
    (r1 r2 : Z) (m' : ts_hashmap_t) :
  reachable m ->
  index_of m (op_key o1) <> index_of m (op_key o2) ->
  run [o1; o2] m = Some ([r1; r2], m') ->
  run [o2; o1] m = Some ([r2; r1], m').
Proof.
  intros Hinv%reachable_inv Hne. cbn [run].
  destruct (exec o1 m) as [[[r1' m1] t1]|] eqn:H1; [|done].
  destruct (exec o2 m1) as [[[r2' m2] t2]|] eqn:H2; [|done].
  intros [= -> -> ->].
  destruct (exec_swap _ _ _ _ _ _ _ _ _ Hinv Hne H1 H2) as (m1' & -> & ->).
  done.
Qed.

Lemma different_buckets_commute_witness :
  reachable scenario_half /\
  index_of scenario_half 5 <> index_of scenario_half 2 /\
  run [Del 5; Put 2 7] scenario_half =
    Some ([20; NOT_FOUND],
          Hashmap [[]; [Entry 1 10]; [Entry 2 7]; []]
                  [false; false; false; false] 4 2 4) /\
  run [Put 2 7; Del 5] scenario_half =
    Some ([NOT_FOUND; 20],
          Hashmap [[]; [Entry 1 10]; [Entry 2 7]; []]
                  [false; false; false; false] 4 2 4).
Proof.
  assert (reachable scenario_half) as Hr
    by (exists 4, [Put 1 10; Put 5 20], [NOT_FOUND; NOT_FOUND];
        split; [lia|vm_compute; reflexivity]).
  assert (index_of scenario_half (op_key (Del 5)) <>
          index_of scenario_half (op_key (Put 2 7))) as Hne
    by (vm_compute; discriminate).
  assert (run [Del 5; Put 2 7] scenario_half =
    Some ([20; NOT_FOUND],
          Hashmap [[]; [Entry 1 10]; [Entry 2 7]; []]
                  [false; false; false; false] 4 2 4)) as Hrun
    by (vm_compute; reflexivity).
  split; [exact Hr|]. split; [exact Hne|]. split; [exact Hrun|].
  exact (different_buckets_commute _ _ _ _ _ _ Hr Hne Hrun).
Defined.

(** ** Fresh maps *)

(** X8.  A fresh map is empty: on the map [initmap] returns for a
    positive capacity, the first call, whichever it is, returns
    [NOT_FOUND]; after a [get] or a [del] the map still has no entry,
    after a [put] it has the entry put and no other; [size] is the
    number of entries and [numOps] is one. *)
Theorem first_call_on_fresh_map (capacity : Z) (o : op) :
  0 < capacity -> 0 <= Z.rem (op_key o) capacity ->
  exists m,
    returns (exec o) (initmap capacity) NOT_FOUND m /\
    entries m = match o with
                | Put key value => [Entry key value]
                | _ => []
                end /\
    map_size m = Z.of_nat (length (entries m)) /\
    map_numOps m = 1.
Proof.
  intros Hc Hi. pose proof (enter_initmap _ _ Hc Hi) as He.
  assert (Z.to_nat (Z.rem (op_key o) capacity) < Z.to_nat capacity)%nat as Hlt.
  { pose proof (Z.rem_bound_pos_pos (op_key o) capacity).
    destruct (decide (0 <= op_key o)); [lia|].
    pose proof (Z.rem_nonpos (op_key o) capacity). lia. }
  unfold returns. rewrite exec_eq, He.
  destruct o as [key|key value|key]; cbn -[initmap INT_MAX];
    eexists; (split; [eexists; reflexivity|]); unfold entries; cbn;
    rewrite join_insert_replicate by done; done.
Qed.

Lemma first_call_on_fresh_map_witness :
  0 < 4 /\ 0 <= Z.rem (op_key (Put 6 1)) 4 /\
  exists m,
    returns (exec (Put 6 1)) (initmap 4) NOT_FOUND m /\
    entries m = [Entry 6 1] /\
    map_size m = Z.of_nat (length (entries m)) /\
    map_numOps m = 1.
Proof.
  assert (0 < 4) as Hc by lia.
  assert (0 <= Z.rem (op_key (Put 6 1)) 4) as Hi by (vm_compute; discriminate).
  split; [exact Hc|]. split; [exact Hi|].
  exact (first_call_on_fresh_map 4 (Put 6 1) Hc Hi).
Defined.

(** X9.  A capacity that is not positive gives a map no call can use:
    [initmap] does not reject it (for zero and below, the two arrays
    have no position), and every [get], [put] and [del] on the map it
    returns is undefined, for every key. *)
Theorem nonpositive_capacity_unusable (capacity : Z) (o : op) :
  capacity <= 0 -> exec o (initmap capacity) = None.
Proof.
  intros Hc. by rewrite exec_eq, enter_initmap_nonpositive.
Qed.

Lemma nonpositive_capacity_unusable_witness :
  0 <= 0 /\ exec (Get 3) (initmap 0) = None.
Proof.
  assert (0 <= 0) as Hc by lia.
  split; [exact Hc|].
  exact (nonpositive_capacity_unusable 0 (Get 3) Hc).
Defined.

(** ** Threads sharing one map *)

(** X10.  Mutual exclusion: let threads make calls to [get], [put] and
    [del] that return, each thread with the mutex operations the code
    performs in its calls ahead of it.  However the threads are
    interleaved, no two of them are between the lock and the unlock of
    the same bucket at once; a thread is there exactly when it holds
    the mutex of the bucket, and no thread holds two mutexes. *)
Theorem mutual_exclusion (capacity : Z) (programs : list (list op))
    (s0 s : system) :
  started capacity programs s0 ->
  rtc step s0 s ->
  (forall tid1 tid2 index,
     in_critical_section s tid1 index -> in_critical_section s tid2 index ->
     tid1 = tid2) /\
  (forall tid index,
     in_critical_section s tid index <-> holder s !! index = Some tid) /\
  (forall tid i j,
     holder s !! i = Some tid -> holder s !! j = Some tid -> i = j).
Proof.
  intros ->%started_start Hsteps.
  assert (sys_inv s) as Hinv by (eapply steps_inv; [apply start_inv|done]).
  split; [|split].
  - intros tid1 tid2 index H1%critical_section_holder H2%critical_section_holder;
      congruence.
  - intros tid index. by apply critical_section_holder.
  - intros tid i j [r1 H1]%critical_section_holder [r2 H2]%critical_section_holder;
      congruence.
Qed.

Lemma mutual_exclusion_witness :
  started 4 [[Put 1 10]; [Get 5]]
    (System [[Acquire 1; Release 1]; [Acquire 1; Release 1]] ∅) /\
  rtc step (System [[Acquire 1; Release 1]; [Acquire 1; Release 1]] ∅)
    (System (<[0%nat := [Release 1]]>
               [[Acquire 1; Release 1]; [Acquire 1; Release 1]])
            (<[1 := 0%nat]> ∅)) /\
  forall tid1 tid2 index,
    in_critical_section
      (System (<[0%nat := [Release 1]]>
                 [[Acquire 1; Release 1]; [Acquire 1; Release 1]])
              (<[1 := 0%nat]> ∅)) tid1 index ->
    in_critical_section
      (System (<[0%nat := [Release 1]]>
                 [[Acquire 1; Release 1]; [Acquire 1; Release 1]])
              (<[1 := 0%nat]> ∅)) tid2 index ->
    tid1 = tid2.
Proof.
  assert (thread_log 4 [Put 1 10] [Acquire 1; Release 1]) as Hput
    by exact (thread_log_cons 4 (Put 1 10) [] (initmap 4) NOT_FOUND
                (after (initmap 4) 1 [Entry 1 10] 1) (critical 1) []
                eq_refl eq_refl (thread_log_nil 4)).
  assert (thread_log 4 [Get 5] [Acquire 1; Release 1]) as Hget
    by exact (thread_log_cons 4 (Get 5) [] scenario_half 20
                (set_numOps scenario_half 3) (critical 1) []
                eq_refl eq_refl (thread_log_nil 4)).
  assert (started 4 [[Put 1 10]; [Get 5]]
            (System [[Acquire 1; Release 1]; [Acquire 1; Release 1]] ∅))
    as Hstart
    by (split; [repeat constructor; assumption|reflexivity]).
  assert (rtc step (System [[Acquire 1; Release 1]; [Acquire 1; Release 1]] ∅)
            (System (<[0%nat := [Release 1]]>
                       [[Acquire 1; Release 1]; [Acquire 1; Release 1]])
                    (<[1 := 0%nat]> ∅))) as Hsteps
    by (apply rtc_once, (step_acquire _ _ 0%nat 1 [Release 1]); reflexivity).
  split; [exact Hstart|]. split; [exact Hsteps|].
  exact (proj1 (mutual_exclusion 4 [[Put 1 10]; [Get 5]] _ _ Hstart Hsteps)).
Defined.

(** X11.  Every thread gets through: let threads make calls to [get],
    [put] and [del] that return, each thread with the mutex operations
    the code performs in its calls ahead of it.  An interleaving that
    has made [n] mutex operations has as many left as two per call less
    [n], so no interleaving is longer than twice the number of calls;
    and from wherever it stands it can be run on to a state where every
    thread is through with its calls and every mutex is free. *)
Theorem every_thread_finishes (capacity : Z) (programs : list (list op))
    (n : nat) (s0 s : system) :
  started capacity programs s0 ->
  nsteps step n s0 s ->
  (n + work_left s = 2 * length (mjoin programs))%nat /\
  exists s', rtc step s s' /\ finished s' /\ holder s' = ∅.
Proof.
  intros ->%started_start Hsteps. split.
  - rewrite (nsteps_work_left _ _ _ Hsteps). apply work_left_start.
  - assert (sys_inv s) as Hinv.
    { eapply steps_inv; [apply start_inv|]. by eapply rtc_nsteps_2. }
    destruct (run_to_end _ Hinv) as (s' & Hrun & Hf).
    exists s'. repeat split; try done.
    apply finished_holder; [|done]. by eapply steps_inv.
Qed.

Lemma every_thread_finishes_witness :
  started 4 [[Del 5]; [Put 2 7]]
    (System [[Acquire 1; Release 1]; [Acquire 2; Release 2]] ∅) /\
  nsteps step 1 (System [[Acquire 1; Release 1]; [Acquire 2; Release 2]] ∅)
    (System (<[1%nat := [Release 2]]>
               [[Acquire 1; Release 1]; [Acquire 2; Release 2]])
            (<[2 := 1%nat]> ∅)) /\
  (1 + work_left
         (System (<[1%nat := [Release 2%Z]]>
                    [[Acquire 1%Z; Release 1%Z]; [Acquire 2%Z; Release 2%Z]])
                 (<[2%Z := 1%nat]> ∅))
   = 2 * 2)%nat.
Proof.
  assert (thread_log 4 [Del 5] [Acquire 1; Release 1]) as Hdel
    by exact (thread_log_cons 4 (Del 5) [] scenario_half 20
                (after scenario_half 1 [Entry 1 10] 1) (critical 1) []
                eq_refl eq_refl (thread_log_nil 4)).
  assert (thread_log 4 [Put 2 7] [Acquire 2; Release 2]) as Hput
    by exact (thread_log_cons 4 (Put 2 7) [] scenario_half NOT_FOUND
                (after scenario_half 2 [Entry 2 7] 3) (critical 2) []
                eq_refl eq_refl (thread_log_nil 4)).
  assert (started 4 [[Del 5]; [Put 2 7]]
            (System [[Acquire 1; Release 1]; [Acquire 2; Release 2]] ∅))
    as Hstart
    by (split; [repeat constructor; assumption|reflexivity]).
  assert (nsteps step 1
            (System [[Acquire 1; Release 1]; [Acquire 2; Release 2]] ∅)
            (System (<[1%nat := [Release 2]]>
                       [[Acquire 1; Release 1]; [Acquire 2; Release 2]])
                    (<[2 := 1%nat]> ∅))) as Hsteps
    by (apply nsteps_once, (step_acquire _ _ 1%nat 2 [Release 2]); reflexivity).
  split; [exact Hstart|]. split; [exact Hsteps|].
  exact (proj1 (every_thread_finishes 4 [[Del 5]; [Put 2 7]] 1 _ _
                  Hstart Hsteps)).
Defined.

(** ** printmap *)

(** X12.  [printmap] prints the whole map: on a map reached from a fresh
    one the call is defined (every [table[i]] it reads exists) and what
    it writes has one line per bucket and one parenthesised pair per
    entry, as many as [size] says. *)
Theorem printmap_lines_and_pairs (m : ts_hashmap_t) :
  reachable m ->
  exists s,
    printmap m = Some s /\
    Z.of_nat (occurrences newline s) = map_capacity m /\
    Z.of_nat (occurrences "(" s) = map_size m.
Proof.
  intros Hinv%reachable_inv.
  destruct (inv_wf _ Hinv) as [[Hc Ht _] _].
  destruct (printmap_for_Some m 0 (Z.to_nat (map_capacity m)))
    as (s & Hs & Hn & Hp); [lia|].
  exists s. split; [exact Hs|]. rewrite Hn, Hp, (inv_size _ Hinv).
  split; [lia|]. unfold entries. by rewrite drop_0, take_ge by lia.
Qed.

Lemma printmap_lines_and_pairs_witness :
  reachable scenario_half /\
  exists s,
    printmap scenario_half = Some s /\
    Z.of_nat (occurrences newline s) = 4 /\
    Z.of_nat (occurrences "(" s) = 2.
Proof.
  assert (reachable scenario_half) as Hr
    by (exists 4, [Put 1 10; Put 5 20], [NOT_FOUND; NOT_FOUND];
        split; [lia|vm_compute; reflexivity]).
  split; [exact Hr|].
  exact (printmap_lines_and_pairs scenario_half Hr).
Defined.

(** X13.  What [printmap] writes determines the map's contents: two
    allocated maps for which it writes the same text have the same
    capacity and, bucket for bucket, the same chains of keys and values
    in the same order. *)
Theorem printmap_shows_table (m1 m2 : ts_hashmap_t) (s : string) :
  allocated m1 -> allocated m2 ->
  printmap m1 = Some s -> printmap m2 = Some s ->
  map_capacity m1 = map_capacity m2 /\ map_table m1 = map_table m2.
Proof.
  intros [Hc1 Ht1 _] [Hc2 Ht2 _] H1 H2.
  destruct (printmap_for_inj _ _ _ _ _ _ H1 H2) as [Hn Hslots].
  split; [lia|]. apply list_eq. intros j.
  destruct (decide (j < Z.to_nat (map_capacity m1))%nat) as [Hj|Hj].
  - specialize (Hslots j Hj). unfold slot in Hslots.
    rewrite !decide_True in Hslots by lia.
    by rewrite Z.add_0_l, Nat2Z.id in Hslots.
  - rewrite !lookup_ge_None_2 by lia. done.
Qed.

Lemma printmap_shows_table_witness :
  allocated scenario_half /\
  allocated (set_numOps scenario_half 9) /\
  printmap scenario_half =
    Some ("[0] -> " +:+ String newline
         ("[1] -> (1,10) -> (5,20)" +:+ String newline
         ("[2] -> " +:+ String newline
         ("[3] -> " +:+ String newline EmptyString)))) /\
  printmap (set_numOps scenario_half 9) =
    Some ("[0] -> " +:+ String newline
         ("[1] -> (1,10) -> (5,20)" +:+ String newline
         ("[2] -> " +:+ String newline
         ("[3] -> " +:+ String newline EmptyString)))) /\
  map_table scenario_half = map_table (set_numOps scenario_half 9).
Proof.
  assert (allocated scenario_half) as Ha1 by (split; reflexivity).
  assert (allocated (set_numOps scenario_half 9)) as Ha2
    by (split; reflexivity).
  assert (printmap scenario_half =
    Some ("[0] -> " +:+ String newline
         ("[1] -> (1,10) -> (5,20)" +:+ String newline
         ("[2] -> " +:+ String newline
         ("[3] -> " +:+ String newline EmptyString))))) as H1
    by (vm_compute; reflexivity).
  assert (printmap (set_numOps scenario_half 9) =
    Some ("[0] -> " +:+ String newline
         ("[1] -> (1,10) -> (5,20)" +:+ String newline
         ("[2] -> " +:+ String newline
         ("[3] -> " +:+ String newline EmptyString))))) as H2
    by (vm_compute; reflexivity).
  split; [exact Ha1|]. split; [exact Ha2|]. split; [exact H1|].
  split; [exact H2|].
  exact (proj2 (printmap_shows_table _ _ _ Ha1 Ha2 H1 H2)).
Defined.

(** ** freeMap *)

(** X14.  [freeMap] gives everything back, in this order: on a map
    reached from a fresh one the call is defined; bucket after bucket,
    from index 0 up, it frees the entries of the bucket's chain, head
    first, and then destroys the mutex of that bucket; at the end it
    frees the lock array, the table and the map.  So every entry of the
    map is freed and every mutex destroyed, nothing else is released,
    and [size], decremented at every entry freed, stands at zero when
    the map is freed. *)
Theorem freeMap_frees_everything (m : ts_hashmap_t) :
  reachable m ->
  exists freed,
    freeMap m = Some (0, freed ++ [FreeLock; FreeTable; FreeStruct]) /\
    freed = bucket_releases 0 (map_table m) /\
    freed_entries freed = entries m /\
    destroyed_mutexes freed =
      Z.of_nat <$> seq 0 (Z.to_nat (map_capacity m)) /\
    length freed = (length (entries m) + Z.to_nat (map_capacity m))%nat.
Proof.
  intros Hinv%reachable_inv.
  destruct (inv_wf _ Hinv) as [[Hc Ht Hl] Hf].
  pose proof (inv_size _ Hinv) as Hs. unfold entries in *.
  exists (bucket_releases 0 (map_table m)). unfold freeMap.
  rewrite <- Ht.
  change 0 with (Z.of_nat 0) at 1. rewrite freeMap_for_eq.
  - cbn [mbind option_bind]. rewrite Hs, Z.sub_diag.
    rewrite freed_entries_bucket_releases, destroyed_mutexes_bucket_releases,
      length_bucket_releases. done.
  - by intros j c Hj.
  - intros j Hj. cbn [Nat.add].
    destruct (lookup_lt_is_Some_2 (map_lock m) j) as [held Hh]; [lia|].
    by rewrite Hh, (Forall_lookup_1 _ _ _ _ Hf Hh).
  - unfold INT_MIN. lia.
Qed.

Lemma freeMap_frees_everything_witness :
  reachable scenario_half /\
  freeMap scenario_half =
    Some (0, [DestroyMutex 0;
              FreeEntry (Entry 1 10); FreeEntry (Entry 5 20); DestroyMutex 1;
              DestroyMutex 2; DestroyMutex 3;
              FreeLock; FreeTable; FreeStruct]).
Proof.
  assert (reachable scenario_half) as Hr
    by (exists 4, [Put 1 10; Put 5 20], [NOT_FOUND; NOT_FOUND];
        split; [lia|vm_compute; reflexivity]).
  split; [exact Hr|].
  destruct (freeMap_frees_everything scenario_half Hr)
    as (freed & Hfree & -> & _).
  exact Hfree.
Defined.
